(** * ring/measurements.py: segmentation and validation pipeline

    A shallow embedding of [measurements.py]: the nuclei segmenter
    ([nuclei_segmentation]), the contour extractor ([nuclei_features]), the
    centrosome detector ([centrosomes]), the cell boundary segmenter
    ([cell_boundary]) and the geometric validator ([get_nuclei_features]).

    Also embedded: the engineering notation [eng_string] and, from
    [ring/gui/_ring_label.py], the helpers [distance] and [is_between].

    Conventions.
    - numpy floats are idealised as rationals ([Q]); numeric statements are
      up to [==] on [Q], i.e. exact arithmetic.  The floating-point steps
      of [eng_string] (logarithm, power, division) are parameters, and the
      square root of [distance] is the one of the real numbers.
    - a 2-D numpy array is a shape and an indexing function ([ndarray]);
      where the dtype of an array matters, the cast into it is a
      parameter.
    - Python exceptions are the [Raise] case of [result].
    - routines of scikit-image, OpenCV, scipy and shapely whose internals
      do not matter to the code are parameters of the function that calls
      them; those whose documented behaviour matters are modelled.
    - [logger.info] calls are not modelled. *)

From Stdlib Require Import String List Bool Arith ZArith QArith Qabs Lia Lqa.
From Stdlib Require Import Reals Lra.
From Stdlib Require Import Qpower DecimalString.
From Stdlib Require Import Setoid Morphisms Permutation Sorted.
Import ListNotations.

Set Implicit Arguments.
Local Open Scope nat_scope.

(* ================================================================= *)
(** * Part I: the model *)

(* ----------------------------------------------------------------- *)
(** ** Python results *)

(** The exceptions that appear below.  [InvalidInputError] is named by
    the documentation of the pipeline; no statement of
    [measurements.py] raises it. *)
Inductive exn : Type :=
| ValueError
| IndexError
| TypeError
| ZeroDivisionError
| UnboundLocalError
| InvalidInputError.

Inductive result (A : Type) : Type :=
| Return (a : A)
| Raise (e : exn).

Arguments Return {A} a.
Arguments Raise {A} e.

Definition bind {A B : Type} (m : result A) (k : A -> result B) : result B :=
  match m with
  | Return a => k a
  | Raise e => Raise e
  end.

Notation "x <- m ;; k" := (bind m (fun x => k))
  (at level 61, m at next level, right associativity).

(* ----------------------------------------------------------------- *)
(** ** 2-D arrays *)

Record ndarray (A : Type) : Type := mk_ndarray {
  nrows : nat;
  ncols : nat;
  item : nat -> nat -> A
}.

Definition shape {A} (a : ndarray A) : nat * nat := (nrows a, ncols a).

(** Index pairs in C (row-major) order. *)
Definition indices {A} (a : ndarray A) : list (nat * nat) :=
  list_prod (seq 0 (nrows a)) (seq 0 (ncols a)).

Definition ravel {A} (a : ndarray A) : list A :=
  map (fun rc => item a (fst rc) (snd rc)) (indices a).

Definition amap {A B} (f : A -> B) (a : ndarray A) : ndarray B :=
  mk_ndarray (nrows a) (ncols a) (fun r c => f (item a r c)).

Definition aimap {A B} (f : nat -> nat -> A -> B) (a : ndarray A) : ndarray B :=
  mk_ndarray (nrows a) (ncols a) (fun r c => f r c (item a r c)).

Definition azip {A B C} (f : A -> B -> C) (a : ndarray A) (b : ndarray B)
  : ndarray C :=
  mk_ndarray (nrows a) (ncols a) (fun r c => f (item a r c) (item b r c)).

Definition full_like {A B} (a : ndarray A) (v : B) : ndarray B :=
  mk_ndarray (nrows a) (ncols a) (fun _ _ => v).

(** [a[r, c] = v] *)
Definition aset {A} (a : ndarray A) (r c : nat) (v : A) : ndarray A :=
  mk_ndarray (nrows a) (ncols a)
    (fun r' c' => if (r' =? r) && (c' =? c) then v else item a r' c').

(** An array literal, given by its rows. *)
Definition of_rows {A} (d : A) (rows : list (list A)) : ndarray A :=
  mk_ndarray (length rows) (length (hd [] rows))
    (fun r c => nth c (nth r rows []) d).

Definition image := ndarray Z.
Definition mask := ndarray bool.
Definition label_image := ndarray nat.

(** The pixels of an array that lie on its border: first or last row,
    first or last column. *)
Definition on_border {A} (a : ndarray A) (r c : nat) : bool :=
  (r =? 0) || (S r =? nrows a) || (c =? 0) || (S c =? ncols a).

(* ----------------------------------------------------------------- *)
(** ** Geometry (shapely) *)

(** [x < y] on floats. *)
Definition Qlt_bool (x y : Q) : bool := negb (Qle_bool y x).

Definition coord : Type := (Q * Q)%type.

(** A centrosome as [centrosomes] reports it: a row [(x, y, radius)]. *)
Definition blob : Type := (Q * Q * Q)%type.

Inductive geometry : Type :=
| Polygon (shell : list coord)
| Point (x y z : Q).

(** [Point(cen)] for a three-element row. *)
Definition Point_of (cen : blob) : geometry :=
  let '(x, y, z) := cen in Point x y z.

(** The records [{'id': ..., 'boundary': ...}] that [nuclei_features] and
    [cell_boundary] build. *)
Record boundary_record : Type := mk_boundary_record {
  id : Z;
  boundary : list coord
}.

(** *** Containment for convex shells

    shapely's [contains] is a parameter of the validator.  For the
    concrete frames, squares and points of the examples it is
    instantiated by the predicate below, which decides containment in a
    convex shell by the sign of the cross product along each edge: a
    polygon is contained when all its vertices are inside or on the
    shell, a point when it is strictly inside (a point on the boundary
    is not contained). *)
Module Convex.

Definition cross (o a b : coord) : Q :=
  ((fst a - fst o) * (snd b - snd o) - (snd a - snd o) * (fst b - fst o))%Q.

Definition coord_eqb (a b : coord) : bool :=
  Qeq_bool (fst a) (fst b) && Qeq_bool (snd a) (snd b).

(** The edges of a ring, closing it; zero-length edges are skipped. *)
Definition ring_edges (shell : list coord) : list (coord * coord) :=
  match shell with
  | [] => []
  | v :: rest =>
      filter (fun e => negb (coord_eqb (fst e) (snd e)))
             (combine shell (rest ++ [v]))
  end.

Definition sides (shell : list coord) (p : coord) : list Q :=
  map (fun e => cross (fst e) (snd e) p) (ring_edges shell).

Definition covers (shell : list coord) (p : coord) : bool :=
  let s := sides shell p in
  (3 <=? length s) &&
  (forallb (fun x => Qle_bool 0 x) s || forallb (fun x => Qle_bool x 0) s).

Definition strictly_inside (shell : list coord) (p : coord) : bool :=
  let s := sides shell p in
  (3 <=? length s) &&
  (forallb (fun x => Qlt_bool 0 x) s || forallb (fun x => Qlt_bool x 0) s).

Definition contains (a b : geometry) : bool :=
  match a, b with
  | Polygon sa, Polygon sb => (3 <=? length sb) && forallb (covers sa) sb
  | Polygon sa, Point x y _ => strictly_inside sa (x, y)
  | Point x y _, Point x' y' _ => coord_eqb (x, y) (x', y')
  | Point _ _ _, Polygon _ => false
  end.

(** For the examples: a ring needs three points; an empty shell gives
    the empty polygon. *)
Definition valid_shell (shell : list coord) : bool :=
  negb ((length shell =? 1) || (length shell =? 2)).

End Convex.

(* ----------------------------------------------------------------- *)
(** ** Geometric validator: [get_nuclei_features] *)

Definition validation : Type :=
  (bool * option geometry * geometry * option (list geometry))%type.

Section GeometricValidator.

(** [a.contains(b)] of shapely. *)
Variable contains : geometry -> geometry -> bool.

(** Whether shapely makes a ring of a shell.  [Polygon(shell)] raises
    [ValueError] for a shell it makes no ring of, such as a shell of
    one or two points. *)
Variable valid_shell : list coord -> bool.

(** [Polygon(shell)] *)
Definition Polygon_of (shell : list coord) : result geometry :=
  if valid_shell shell then Return (Polygon shell) else Raise ValueError.

(** [maxw, maxh = img.shape;
     frame = Polygon([(0, 0), (0, maxw), (maxh, maxw), (maxh, 0)])].
    A shell of four points always makes a ring. *)
Definition frame (img : image) : geometry :=
  let '(maxw, maxh) := shape img in
  let maxw := inject_Z (Z.of_nat maxw) in
  let maxh := inject_Z (Z.of_nat maxh) in
  Polygon [(0, 0); (0, maxw); (maxh, maxw); (maxh, 0)]%Q.

(** The loop [for cll in cell_list: cell = Polygon(cll['boundary']);
    if cell.contains(nuc): break].  The variable [cell] is threaded
    through: [None] is the unbound variable. *)
Fixpoint cell_loop (nuc : geometry) (cell_list : list boundary_record)
         (cell : option geometry) : result (option geometry) :=
  match cell_list with
  | [] => Return cell
  | cll :: rest =>
      cell <- Polygon_of (boundary cll) ;;
      if contains cell nuc then Return (Some cell)
      else cell_loop nuc rest (Some cell)
  end.

(** [n_nuc = 0; for ncl in nuclei_list: nuclei = Polygon(ncl['boundary']);
    if cell.contains(nuclei): n_nuc += 1] *)
Fixpoint count_nuclei (cell : geometry) (nuclei_list : list boundary_record)
         (n_nuc : nat) : result nat :=
  match nuclei_list with
  | [] => Return n_nuc
  | ncl :: rest =>
      nuclei <- Polygon_of (boundary ncl) ;;
      count_nuclei cell rest (if contains cell nuclei then n_nuc + 1 else n_nuc)
  end.

(** [clist = list(); for cen in centrosome_list: ... clist.append(cenpt)] *)
Definition centrosomes_in (cell : geometry) (centrosome_list : list blob)
  : list geometry :=
  fold_left
    (fun clist cen =>
       let cenpt := Point_of cen in
       if contains cell cenpt then clist ++ [cenpt] else clist)
    centrosome_list [].

Definition get_nuclei_features (img : image) (nuclei : list coord)
           (cell_list nuclei_list : list boundary_record)
           (centrosome_list : list blob) : result validation :=
  let frame := frame img in
  nuc <- Polygon_of nuclei ;;
  cell <- cell_loop nuc cell_list None ;;
  match cell with
  | None => Raise UnboundLocalError
  | Some cell =>
      if negb (contains frame cell) || negb (contains cell nuc) then
        Return (false, Some cell, nuc, None)
      else
        n_nuc <- count_nuclei cell nuclei_list 0 ;;
        if negb (n_nuc =? 1) then
          Return (false, Some cell, nuc, None)
        else
          let clist := centrosomes_in cell centrosome_list in
          if (length clist =? 0) || (2 <? length clist) then
            Return (false, None, nuc, None)
          else
            Return (true, Some cell, nuc, Some clist)
  end.

(** *** Notions used to state the validator's properties *)

(** The polygon of a cell record. *)
Definition cell_polygon (cll : boundary_record) : geometry := Polygon (boundary cll).

(** The records of a list all hold a shell that shapely makes a ring
    of. *)
Definition well_formed (records : list boundary_record) : Prop :=
  Forall (fun rec => valid_shell (boundary rec) = true) records.

(** A cell the search goes past: its polygon is built and does not
    contain the nucleus. *)
Definition passed_over (nuc : geometry) (cll : boundary_record) : Prop :=
  valid_shell (boundary cll) = true /\ contains (cell_polygon cll) nuc = false.

(** The first cell of the list, in list order, that contains the nucleus. *)
Definition first_containing (nuc : geometry) (cell_list : list boundary_record)
  : option geometry :=
  find (fun cell => contains cell nuc) (map cell_polygon cell_list).

(** The cell the later checks are made with: the polygon of the first
    cell that contains the nucleus or, when none does, of the last cell
    of the list; every cell up to it was built. *)
Definition chosen_cell (nuc : geometry) (cell_list : list boundary_record)
           (cell : geometry) : Prop :=
  exists before cll after,
    cell_list = before ++ cll :: after /\
    Forall (passed_over nuc) before /\
    valid_shell (boundary cll) = true /\
    cell = cell_polygon cll /\
    (contains cell nuc = true \/ after = []).

(** The rectangle of an image of [rows] rows and [cols] columns, as the
    validator lists its corners. *)
Definition image_rectangle (img : image) : geometry :=
  Polygon [(0, 0); (0, inject_Z (Z.of_nat (nrows img)));
           (inject_Z (Z.of_nat (ncols img)), inject_Z (Z.of_nat (nrows img)));
           (inject_Z (Z.of_nat (ncols img)), 0)]%Q.

(** The checks that follow the choice of the cell, as one function of
    the chosen cell. *)
Definition checks_with (img : image) (nuclei : list coord)
           (nuclei_list : list boundary_record) (centrosome_list : list blob)
           (cell : geometry) : result validation :=
  let nuc := Polygon nuclei in
  if negb (contains (frame img) cell) || negb (contains cell nuc) then
    Return (false, Some cell, nuc, None)
  else
    n_nuc <- count_nuclei cell nuclei_list 0 ;;
    if negb (n_nuc =? 1) then
      Return (false, Some cell, nuc, None)
    else
      let clist := centrosomes_in cell centrosome_list in
      if (length clist =? 0) || (2 <? length clist) then Return (false, None, nuc, None)
      else Return (true, Some cell, nuc, Some clist).

(** The number of nuclei of the list inside a cell, and the centrosome
    points inside it. *)
Definition nuclei_inside (cell : geometry) (nuclei_list : list boundary_record)
  : nat :=
  length (filter (fun ncl => contains cell (Polygon (boundary ncl))) nuclei_list).

Definition centrosomes_inside (cell : geometry) (centrosome_list : list blob)
  : list geometry :=
  filter (contains cell) (map Point_of centrosome_list).

(** The conditions under which a cell is accepted. *)
Definition accepted (img : image) (nuclei : list coord)
           (nuclei_list : list boundary_record) (centrosome_list : list blob)
           (cell : geometry) : Prop :=
  contains (image_rectangle img) cell = true /\
  contains cell (Polygon nuclei) = true /\
  nuclei_inside cell nuclei_list = 1 /\
  (length (centrosomes_inside cell centrosome_list) = 1 \/
   length (centrosomes_inside cell centrosome_list) = 2).

End GeometricValidator.

(** The example of the documentation: a 100x100 frame, a cell square
    (10,10)-(90,90), a nucleus square (40,40)-(60,60), one centrosome at
    (50,50). *)
Definition img_100 : image := mk_ndarray 100 100 (fun _ _ => 0%Z).
Definition cell_square : list coord := [(10, 10); (10, 90); (90, 90); (90, 10)]%Q.
Definition nucleus_square : list coord := [(40, 40); (40, 60); (60, 60); (60, 40)]%Q.
Definition centrosome_50 : blob := (50, 50, 1)%Q.

(* ----------------------------------------------------------------- *)
(** ** Coordinate transform (skimage.transform) *)

(** A similarity transform with parameter matrix
    [[a, -b, tx], [b, a, ty], [0, 0, 1]], where [a = scale * cos rotation]
    and [b = scale * sin rotation]. *)
Record SimilarityTransform : Type := mk_similarity {
  m_a : Q;
  m_b : Q;
  m_tx : Q;
  m_ty : Q
}.

(** [tform(coords)] on one row: the matrix applied to [(x, y, 1)]. *)
Definition apply_tform (t : SimilarityTransform) (p : coord) : coord :=
  let '(x, y) := p in
  (m_a t * x + - m_b t * y + m_tx t, m_b t * x + m_a t * y + m_ty t)%Q.

(** [tform.inverse]: the transform of the inverse matrix. *)
Definition inverse (t : SimilarityTransform) : SimilarityTransform :=
  let det := (m_a t * m_a t + m_b t * m_b t)%Q in
  let a := (m_a t / det)%Q in
  let b := (- m_b t / det)%Q in
  mk_similarity a b (- (a * m_tx t + - b * m_ty t)) (- (b * m_tx t + a * m_ty t)).

(** [tf.SimilarityTransform(scale, rotation, translation)], the rotation
    given by its cosine and sine. *)
Definition similarity_transform (scale cos_rotation sin_rotation : Q)
           (translation : Q * Q) : SimilarityTransform :=
  mk_similarity (scale * cos_rotation) (scale * sin_rotation)
                (fst translation) (snd translation).

(** [tf.SimilarityTransform(rotation=math.pi / 2)]: scale 1, no
    translation, and in exact arithmetic [cos (pi/2) = 0] and
    [sin (pi/2) = 1]. *)
Definition tform : SimilarityTransform := similarity_transform 1 0 1 (0, 0)%Q.

(** [contr[:, 0] *= -1] on one row. *)
Definition flip_first (p : coord) : coord := ((fst p * -1)%Q, snd p).

(** The correction both [nuclei_features] and [centrosomes] apply to a
    row: [tform] and then the sign flip of the first coordinate. *)
Definition to_frame (p : coord) : coord := flip_first (apply_tform tform p).

(** Its inverse: undo the sign flip, then [tform.inverse]. *)
Definition from_frame (p : coord) : coord :=
  apply_tform (inverse tform) (flip_first p).

(** Equality of rows and of polygons up to [==] on the coordinates. *)
Definition coord_eq (p q : coord) : Prop := (fst p == fst q /\ snd p == snd q)%Q.
Definition poly_eq (p q : list coord) : Prop := Forall2 coord_eq p q.

(* ----------------------------------------------------------------- *)
(** ** Contour extractor: [nuclei_features] *)

Definition enumerate {A} (l : list A) : list (nat * A) :=
  combine (seq 0 (length l)) l.

(** [np.roll(v, 1)] *)
Definition roll1 (v : list Q) : list Q :=
  match v with
  | [] => []
  | _ :: _ => last v 0%Q :: removelast v
  end.

(** [np.dot] of two vectors. *)
Definition dot (x y : list Q) : Q :=
  fold_right (fun xy acc => (fst xy * snd xy + acc)%Q) 0%Q (combine x y).

(** The shoelace formula, as the local function of [nuclei_features]. *)
Definition polygon_area (x y : list Q) : Q :=
  ((1 # 2) * Qabs (dot x (roll1 y) - dot y (roll1 x)))%Q.

(** Column [k] of a contour: [contr[:, 0]] and [contr[:, 1]]. *)
Definition col0 (contr : list coord) : list Q := map fst contr.
Definition col1 (contr : list coord) : list Q := map snd contr.

(** The drawing sink [ax]: the lines plotted so far, each an [(x, y)]
    pair of columns. *)
Definition axes : Type := list (list Q * list Q).

Definition default_area_thresh : Q := 100.

Section ContourExtractor.

(** [measure.find_contours(image, level)] *)
Variable find_contours : image -> Q -> list (list coord).

Definition nuclei_features (image : image) (ax : option axes) (area_thresh : Q)
  : list boundary_record * option axes :=
  let contours := find_contours image (9 # 10) in
  fold_left
    (fun (st : list boundary_record * option axes) (kc : nat * list coord) =>
       let '(_list, ax) := st in
       let '(k, contr) := kc in
       if Qlt_bool area_thresh (polygon_area (col0 contr) (col1 contr)) then
         let contr := map (apply_tform tform) contr in
         let contr := map flip_first contr in
         (_list ++ [mk_boundary_record (Z.of_nat k) contr],
          match ax with
          | Some lines => Some (lines ++ [(col1 contr, col0 contr)])
          | None => None
          end)
       else st)
    (enumerate contours) ([], ax).

End ContourExtractor.

(** *** Notions used to state the extractor's properties *)

(** The shoelace area of a contour. *)
Definition contour_area (contr : list coord) : Q :=
  polygon_area (col0 contr) (col1 contr).

(** The contours that pass the area test, with their positions. *)
Definition kept (area_thresh : Q) (contours : list (list coord))
  : list (nat * list coord) :=
  filter (fun kc => Qlt_bool area_thresh (contour_area (snd kc))) (enumerate contours).

(** A closed 10x10 square contour: its shoelace area is exactly 100. *)
Definition square_contour : list coord :=
  [(0, 0); (10, 0); (10, 10); (0, 10); (0, 0)]%Q.

(** A closed 11x11 square contour, of area 121. *)
Definition larger_contour : list coord :=
  [(0, 0); (11, 0); (11, 11); (0, 11); (0, 0)]%Q.

(* ----------------------------------------------------------------- *)
(** ** Centrosome detector: [centrosomes] *)

Definition default_max_sigma : Q := 1.

Section CentrosomeDetector.

(** [feature.blob_doh(image, min_sigma, max_sigma, num_sigma, threshold)]:
    rows [(row, col, sigma)]. *)
Variable blob_doh : image -> Q -> Q -> nat -> Q -> list blob.

(** [sqrt(2)] as a float. *)
Variable sqrt2 : Q.

Definition centrosomes (image : image) (max_sigma : Q) : list blob :=
  let blobs_log := blob_doh image (5 # 100) max_sigma 10 (1 # 10) in
  let blobs_log := map (fun b : blob => let '(r, c, s) := b in (r, c, s * sqrt2)%Q) blobs_log in
  let blobs_log :=
    map (fun b : blob => let '(r, c, s) := b in
                         let '(x, y) := apply_tform tform (r, c) in (x, y, s))
        blobs_log in
  map (fun b : blob => let '(x, y, s) := b in
                       let '(x, y) := flip_first (x, y) in (x, y, s))
      blobs_log.

End CentrosomeDetector.

(* ----------------------------------------------------------------- *)
(** ** scikit-image routines of the nuclei segmenter *)

Module Skimage.

(** Rows (or columns) next to [n], [n] itself included. *)
Definition around (n : nat) : list nat :=
  match n with
  | 0 => [0; 1]
  | S m => [m; n; S n]
  end.

(** The neighbourhood of a pixel: 4-connected for [connectivity = 1],
    8-connected otherwise.  The pixel itself is listed too. *)
Definition neighbours (connectivity r c : nat) : list (nat * nat) :=
  if connectivity =? 1 then
    map (fun r' => (r', c)) (around r) ++ map (fun c' => (r, c')) (around c)
  else list_prod (around r) (around c).

(** Spread label [l] from the pixels of [work] over the unlabelled
    foreground pixels connected to them. *)
Fixpoint flood (fuel connectivity : nat) (input : mask) (l : nat)
         (work : list (nat * nat)) (labels : label_image) : label_image :=
  match fuel, work with
  | S fuel, (r, c) :: work =>
      if (r <? nrows input) && (c <? ncols input) && item input r c
         && (item labels r c =? 0)
      then flood fuel connectivity input l
                 (neighbours connectivity r c ++ work) (aset labels r c l)
      else flood fuel connectivity input l work labels
  | _, _ => labels
  end.

(** Every labelled pixel queues at most nine entries. *)
Definition flood_fuel (input : mask) : nat := S (10 * (nrows input * ncols input)).

Fixpoint label_scan (connectivity : nat) (input : mask)
         (pixels : list (nat * nat)) (next : nat) (labels : label_image)
  : label_image :=
  match pixels with
  | [] => labels
  | (r, c) :: pixels =>
      if item input r c && (item labels r c =? 0) then
        label_scan connectivity input pixels (S next)
                   (flood (flood_fuel input) connectivity input next [(r, c)] labels)
      else label_scan connectivity input pixels next labels
  end.

(** [measure.label(input, connectivity=...)] on a boolean array:
    background pixels get 0, the connected components of the foreground
    get 1, 2, ... in raster order. *)
Definition label (input : mask) (connectivity : nat) : label_image :=
  label_scan connectivity input (indices input) 1 (full_like input 0).

(** [segmentation.clear_border(labels)] with its defaults
    ([buffer_size=0], [bgval=0]): the array is labelled, the labels met
    on the border are collected, and every pixel that carries one of
    them is set to the background value. *)
Definition clear_border (labels : mask) : mask :=
  let image := labels in
  let labels := label image 2 in
  let borders_indices :=
    map (fun rc => item labels (fst rc) (snd rc))
        (filter (fun rc => on_border image (fst rc) (snd rc)) (indices image)) in
  aimap (fun r c v =>
           if existsb (Nat.eqb (item labels r c)) borders_indices then false else v)
        image.

(** [np.bincount]: how often each of [0 .. max] occurs. *)
Definition bincount (v : list nat) : list nat :=
  map (count_occ Nat.eq_dec v) (seq 0 (S (fold_right Nat.max 0 v))).

(** [morphology.remove_small_objects(ar, min_size, connectivity)] on a
    boolean array: the components are labelled and counted, and the
    pixels of those smaller than [min_size] are cleared. *)
Definition remove_small_objects (ar : mask) (min_size connectivity : nat) : mask :=
  let ccs := label ar connectivity in
  let component_sizes := bincount (ravel ccs) in
  let too_small := map (fun size => size <? min_size) component_sizes in
  aimap (fun r c v => if nth (item ccs r c) too_small false then false else v) ar.

(** [morphology.remove_small_holes(ar, min_size, connectivity)] *)
Definition remove_small_holes (ar : mask) (min_size connectivity : nat) : mask :=
  let out := amap negb ar in
  let out := remove_small_objects out min_size connectivity in
  amap negb out.

(** [ndi.find_objects(label_image)]: one entry per label [1 .. max],
    telling whether the label occurs (the slices are not modelled). *)
Definition find_objects (label_image : label_image) : list bool :=
  map (fun l => existsb (Nat.eqb l) (ravel label_image))
      (seq 1 (fold_right Nat.max 0 (ravel label_image))).

(** [np.cumsum] *)
Fixpoint cumsum (acc : Z) (v : list Z) : list Z :=
  match v with
  | [] => []
  | x :: v => (acc + x)%Z :: cumsum (acc + x) v
  end.

(** [np.argmax]: the index of the first maximum. *)
Fixpoint argmax (v : list Q) (i best_i : nat) (best : Q) : nat :=
  match v with
  | [] => best_i
  | x :: v =>
      if Qle_bool x best then argmax v (S i) best_i best
      else argmax v (S i) i x
  end.

(** [filters.threshold_otsu(image)] on an integer image.  The first
    pixel is read ([image.reshape(-1)[0]], an [IndexError] on an array
    without pixels); an image of a single grey level has that level as
    its threshold; otherwise the histogram has one bin per grey level
    between the minimum and the maximum, and the threshold is the level
    that maximises the between-class variance ([np.argmax], which raises
    [ValueError] on an empty sequence). *)
Definition threshold_otsu (image : image) : result Z :=
  match ravel image with
  | [] => Raise IndexError
  | first_pixel :: ps =>
      if forallb (Z.eqb first_pixel) ps then Return first_pixel
      else
        let lo := fold_left Z.min ps first_pixel in
        let hi := fold_left Z.max ps first_pixel in
        let bin_centers :=
          map (fun k => (lo + Z.of_nat k)%Z) (seq 0 (S (Z.to_nat (hi - lo)))) in
        let hist :=
          map (fun v => Z.of_nat (count_occ Z.eq_dec (first_pixel :: ps) v))
              bin_centers in
        let weight1 := cumsum 0 hist in
        let sum1 := cumsum 0 (map (fun hc => (fst hc * snd hc)%Z) (combine hist bin_centers)) in
        let total := last weight1 0%Z in
        let total_sum := last sum1 0%Z in
        let variance12 :=
          map (fun ws : Z * Z =>
                 let '(w1, s1) := ws in
                 let w2 := (total - w1)%Z in
                 let mean1 := (inject_Z s1 / inject_Z w1)%Q in
                 let mean2 := (inject_Z (total_sum - s1) / inject_Z w2)%Q in
                 (inject_Z w1 * inject_Z w2 * ((mean1 - mean2) * (mean1 - mean2)))%Q)
              (removelast (combine weight1 sum1)) in
        match variance12 with
        | [] => Raise ValueError
        | v0 :: vs =>
            let idx := argmax vs 1 0 v0 in
            Return (nth idx bin_centers lo)
        end
  end.

End Skimage.

(** Every labelled pixel is a foreground pixel inside the array. *)
Definition labels_foreground (input : mask) (labels : label_image) : Prop :=
  forall r c, item labels r c <> 0 ->
              r < nrows input /\ c < ncols input /\ item input r c = true.

(** The positive labels that occur in a label image, each once. *)
Definition distinct_positive_labels (label_image : label_image) : list nat :=
  nodup Nat.eq_dec (filter (fun l => 0 <? l) (ravel label_image)).

(** The labels [regionprops] reports: those of [1 .. max] that occur. *)
Definition reported_labels (label_image : label_image) : list nat :=
  filter (fun l => existsb (Nat.eqb l) (ravel label_image))
         (seq 1 (fold_right Nat.max 0 (ravel label_image))).

(* ----------------------------------------------------------------- *)
(** ** Nuclei segmenter: [nuclei_segmentation] *)

(** The thirteen measurements the segmenter reads from a region, in the
    order of its columns. *)
Record region_measurements : Type := mk_region_measurements {
  area : Q;
  bbox_area : Q;
  centroid : Q * Q;
  eccentricity : Q;
  equivalent_diameter : Q;
  euler_number : Q;
  extent : Q;
  max_intensity : Q;
  mean_intensity : Q;
  min_intensity : Q;
  orientation : Q;
  perimeter : Q
}.

(** A region of [measure.regionprops]. *)
Record RegionProperties : Type := mk_RegionProperties {
  label : nat;
  measurements : region_measurements
}.

(** A [pd.DataFrame]: the name of its index, its columns, its index and
    its rows. *)
Record DataFrame : Type := mk_DataFrame {
  index_name : option string;
  df_columns : list string;
  df_index : list nat;
  df_rows : list (list Q)
}.

(** [pd.DataFrame([], index=[])] *)
Definition empty_frame : DataFrame := mk_DataFrame None [] [] [].

Definition default_radius : Z := 30.

(** The row the segmenter builds from a region. *)
Definition region_row (p : RegionProperties) : list Q :=
  let m := measurements p in
  [area m; bbox_area m; fst (centroid m); snd (centroid m); eccentricity m;
   equivalent_diameter m; euler_number m; extent m; max_intensity m;
   mean_intensity m; min_intensity m; orientation m; perimeter m].

Section NucleiSegmenter.

(** [filters.threshold_otsu], [morphology.remove_small_holes] and
    [morphology.remove_small_objects] with their defaults. *)
Variable threshold_otsu : image -> result Z.
Variable remove_small_holes : mask -> mask.
Variable remove_small_objects : mask -> mask.

(** The measurements of the region of a label, given the label image
    and the intensity image. *)
Variable measure_region : nat -> label_image -> image -> region_measurements.

(** [measure.regionprops(label_image, intensity_image)]: a region for
    every label that [find_objects] reports, in increasing order. *)
Definition regionprops (label_image : label_image) (intensity_image : image)
  : list RegionProperties :=
  flat_map
    (fun isl : nat * bool =>
       let '(i, sl) := isl in
       if sl then
         let label := i + 1 in
         [mk_RegionProperties label (measure_region label label_image intensity_image)]
       else [])
    (enumerate (Skimage.find_objects label_image)).

Definition columns : list string :=
  ["area"; "bbox_area"; "centroid_x"; "centroid_u"; "eccentricity";
   "equivalent_diameter"; "euler_number"; "extent"; "max_intensity";
   "mean_intensity"; "min_intensity"; "orientation"; "perimeter"]%string.

Definition nuclei_segmentation (image : image) (radius : Z)
  : result (label_image * DataFrame) :=
  thresh_val <- threshold_otsu image ;;
  let thresh := amap (fun v => (thresh_val <=? v)%Z) image in
  let thresh := remove_small_holes thresh in
  let thresh := remove_small_objects thresh in
  let cleared := Skimage.clear_border thresh in
  let label_image := Skimage.label cleared 2 in
  let '(properties, indices) :=
    fold_left
      (fun (st : list (list Q) * list nat) (p : RegionProperties) =>
         let '(properties, indices) := st in
         let m := measurements p in
         (properties ++
            [[area m; bbox_area m; fst (centroid m); snd (centroid m);
              eccentricity m; equivalent_diameter m; euler_number m; extent m;
              max_intensity m; mean_intensity m; min_intensity m;
              orientation m; perimeter m]],
          indices ++ [label p]))
      (regionprops label_image image) ([], []) in
  if length indices =? 0 then
    Return (label_image, empty_frame)
  else
    Return (label_image, mk_DataFrame (Some "label"%string) columns indices properties).

(** *** Notions used to state the segmenter's properties *)

(** The cleaned mask the labels are computed from, for a threshold. *)
Definition cleaned_mask (image : image) (thresh_val : Z) : mask :=
  Skimage.clear_border
    (remove_small_objects
       (remove_small_holes (amap (fun v => (thresh_val <=? v)%Z) image))).

(** The table built from the regions. *)
Definition region_table (regions : list RegionProperties) : DataFrame :=
  match regions with
  | [] => empty_frame
  | _ :: _ =>
      mk_DataFrame (Some "label"%string) columns (map label regions)
                   (map region_row regions)
  end.

(** What the segmenter returns, once the threshold is known. *)
Definition segmented (image : image) (thresh_val : Z) : label_image * DataFrame :=
  let label_image := Skimage.label (cleaned_mask image thresh_val) 2 in
  (label_image, region_table (regionprops label_image image)).

End NucleiSegmenter.

(* ----------------------------------------------------------------- *)
(** ** Instances for the examples *)

(** The measurements of a region that are exact in rational
    arithmetic: pixel count, bounding box, centroid, extent and the
    intensity statistics.  The measurements that need a square root or
    an angle are reported as 0. *)
Definition measure_exact (l : nat) (label_image : label_image)
           (intensity_image : image) : region_measurements :=
  let pixels :=
    filter (fun rc => item label_image (fst rc) (snd rc) =? l) (indices label_image) in
  let n := inject_Z (Z.of_nat (length pixels)) in
  let rows := map fst pixels in
  let cols := map snd pixels in
  let span v := S (fold_right Nat.max 0 v - fold_right Nat.min (hd 0 v) v) in
  let total v := inject_Z (Z.of_nat (fold_right Nat.add 0 v)) in
  let values := map (fun rc => item intensity_image (fst rc) (snd rc)) pixels in
  let bbox := inject_Z (Z.of_nat (span rows * span cols)) in
  mk_region_measurements
    n bbox (total rows / n, total cols / n)%Q 0 0 0 (n / bbox)
    (inject_Z (fold_right Z.max (hd 0%Z values) values))
    (inject_Z (fold_right Z.add 0%Z values) / n)
    (inject_Z (fold_right Z.min (hd 0%Z values) values))
    0 0.

(** [remove_small_holes] and [remove_small_objects] with their default
    arguments. *)
Definition remove_small_holes_default (ar : mask) : mask :=
  Skimage.remove_small_holes ar 64 1.
Definition remove_small_objects_default (ar : mask) : mask :=
  Skimage.remove_small_objects ar 64 1.

(** A 12x12 image: an 8x8 bright square on a dark background, and one
    slightly brighter pixel in a corner. *)
Definition example_image : image :=
  mk_ndarray 12 12
    (fun r c =>
       if (2 <=? r) && (r <? 10) && (2 <=? c) && (c <? 10) then 200%Z
       else if (r =? 0) && (c =? 11) then 12%Z
       else 10%Z).

(** An image without pixels. *)
Definition empty_image : image := mk_ndarray 0 0 (fun _ _ => 0%Z).

(* ----------------------------------------------------------------- *)
(** ** Cell boundary segmenter: [cell_boundary] *)

(** [cv2.THRESH_BINARY] and [cv2.THRESH_OTSU] *)
Inductive thresh_type : Type :=
| THRESH_BINARY
| THRESH_OTSU.

(** [np.unique] of a list of integers: sorted, without repeats. *)
Fixpoint insert_unique (x : Z) (l : list Z) : list Z :=
  match l with
  | [] => [x]
  | y :: l' =>
      if (x <? y)%Z then x :: l
      else if (x =? y)%Z then l
      else y :: insert_unique x l'
  end.

Definition unique (v : list Z) : list Z := fold_right insert_unique [] v.

(** [morphology.square(3)] *)
Definition square (n : nat) : ndarray Z := mk_ndarray n n (fun _ _ => 1%Z).

(** [kern.sum()] and [kern /= s] *)
Definition asum (a : ndarray Q) : Q := fold_right Qplus 0%Q (ravel a).
Definition adiv (a : ndarray Q) (s : Q) : ndarray Q := amap (fun v => (v / s)%Q) a.

(** [-a] on an array of unsigned bytes. *)
Definition neg_uint8 (a : image) : image := amap (fun v => ((- v) mod 256)%Z) a.

(** A point of an OpenCV contour as a row of floats. *)
Definition raw_point (xy : Z * Z) : coord := (inject_Z (fst xy), inject_Z (snd xy)).

Definition default_threshold : Z := 80.

Section CellBoundarySegmenter.

Variable percentile : image -> Q -> Q.
Variable rescale_intensity : image -> Q * Q -> image.
Variable erosion : image -> ndarray Z -> image.
(** [cv2.getGaborKernel(ksize, sigma, theta, lambd, gamma, psi)] *)
Variable getGaborKernel : nat * nat -> Q -> Q -> Q -> Q -> Q -> ndarray Q.
(** [np.pi] *)
Variable pi : Q.
(** [cv2.filter2D(img, cv2.CV_16UC1, kern)] *)
Variable filter2D : image -> ndarray Q -> image.
(** [astype img v]: the value an array of the dtype of [img] holds once
    [v] is written into it.  numpy casts what a ufunc writes into its
    [out] array: an unsigned 8-bit array keeps [v mod 256]. *)
Variable astype : image -> Z -> Z.
Variable convertScaleAbs : image -> Q -> image.
(** The level Otsu's method picks inside [cv2.threshold]. *)
Variable otsu_level : image -> Z.
Variable GaussianBlur : image -> nat * nat -> Q -> image.
(** [ndi.label] *)
Variable ndi_label : image -> ndarray Z * nat.
(** [morphology.watershed(image, markers, mask=mask)] *)
Variable watershed : image -> ndarray Z -> image -> ndarray Z.
(** [cv2.findContours(m, cv2.RETR_EXTERNAL, cv2.CHAIN_APPROX_SIMPLE)[-2]]:
    the contours, each a list of [(x, y)] points. *)
Variable findContours : image -> list (list (Z * Z)).

(** [cv2.threshold(src, thresh, maxval, type)] *)
Definition cv_threshold (src : image) (thresh maxval : Z) (type : thresh_type)
  : Z * image :=
  let ret := match type with
             | THRESH_BINARY => thresh
             | THRESH_OTSU => otsu_level src
             end in
  (ret, amap (fun v => if (ret <? v)%Z then maxval else 0%Z) src).

Definition build_gabor_filters : list (ndarray Q) :=
  let ksize := 9 in
  fold_left
    (fun filters theta =>
       let kern := getGaborKernel (ksize, ksize) 4 theta 6 (1 # 2) 0 in
       let kern := adiv kern (asum kern) in
       filters ++ [kern])
    (map (fun k => (inject_Z (Z.of_nat k) * (pi / 8))%Q) (seq 0 8)) [].

(** [accum = np.zeros_like(img)] has the dtype of [img], and
    [np.maximum(accum, fimg, accum)] writes the maximum back into it. *)
Definition process_gabor (img : image) (filters : list (ndarray Q)) : image :=
  let accum := full_like img 0%Z in
  fold_left
    (fun accum kern =>
       let fimg := filter2D img kern in
       azip (fun a f => astype img (Z.max a f)) accum fimg)
    filters accum.

(** The body of [cell_boundary] up to the watershed: the labels and the
    Gabor response [gabor_proc]. *)
Definition watershed_labels (tubulin hoechst : image) (threshold : Z)
           (markers : option (ndarray Z)) : ndarray Z * image :=
  let p2 := percentile tubulin 2 in
  let p98 := percentile tubulin 98 in
  let tubulin := rescale_intensity tubulin (p2, p98) in
  let p2 := percentile hoechst 2 in
  let p98 := percentile hoechst 98 in
  let hoechst := rescale_intensity hoechst (p2, p98) in
  let img := tubulin in
  let img := erosion img (square 3) in
  let filters := build_gabor_filters in
  let gabor := process_gabor img filters in
  let gabor := convertScaleAbs gabor (255 / 65535) in
  let '(ret, bin1) := cv_threshold gabor threshold 255 THRESH_BINARY in
  let ksize := 31 in
  let blur := GaussianBlur bin1 (ksize, ksize) 0 in
  let '(ret, bin2) := cv_threshold blur threshold 255 THRESH_OTSU in
  let markers :=
    match markers with
    | None =>
        let hoechst_8 := convertScaleAbs hoechst (255 / 65535) in
        let blur_nuc := GaussianBlur hoechst_8 (ksize, ksize) 0 in
        let '(ret, bin_nuc) := cv_threshold blur_nuc 0 255 THRESH_OTSU in
        fst (ndi_label bin_nuc)
    | Some markers => markers
    end in
  let gabor_proc := gabor in
  let labels := watershed (neg_uint8 gabor_proc) markers bin2 in
  (labels, gabor_proc).

(** [cell_boundary = zeros(labels.shape); cell_boundary[labels == l] = 255] *)
Definition label_mask (labels : ndarray Z) (l : Z) : image :=
  amap (fun v => if (v =? l)%Z then 255%Z else 0%Z) labels.

(** The loop over the positive labels. *)
Fixpoint boundaries_loop (labels : ndarray Z) (ls : list Z)
         (boundaries_list : list boundary_record)
  : result (list boundary_record) :=
  match ls with
  | [] => Return boundaries_list
  | l :: ls =>
      let cell_boundary := label_mask labels l in
      let cnts := findContours cell_boundary in
      match cnts with
      | [] => Raise IndexError
      | contour :: _ =>
          let boundary := map raw_point contour in
          boundaries_loop labels ls
            (boundaries_list ++ [mk_boundary_record l boundary])
      end
  end.

Definition cell_boundary (tubulin hoechst : image) (threshold : Z)
           (markers : option (ndarray Z))
  : result (list boundary_record * image) :=
  let '(labels, gabor_proc) := watershed_labels tubulin hoechst threshold markers in
  boundaries_list <-
    boundaries_loop labels (filter (fun l => (0 <? l)%Z) (unique (ravel labels))) [] ;;
  Return (boundaries_list, gabor_proc).

(** A record holds the first contour of the mask of its label, point
    by point, in the (x, y) order and with the values OpenCV gave. *)
Definition raw_record (labels : ndarray Z) (rec : boundary_record) : Prop :=
  exists contour rest,
    findContours (label_mask labels (id rec)) = contour :: rest /\
    boundary rec = map raw_point contour.

End CellBoundarySegmenter.

(** *** Stand-ins for the OpenCV and scipy routines

    [cell_boundary] is run on an example with these: filters that
    return their input, a watershed that returns its markers, and a
    contour tracer that returns the bounding rectangle of a mask (which
    is its outer contour when the region is a rectangle). *)
Module StandIn.

Definition percentile (_ : image) (_ : Q) : Q := 0.
Definition rescale_intensity (img : image) (_ : Q * Q) : image := img.
Definition erosion (img : image) (_ : ndarray Z) : image := img.
Definition getGaborKernel (ksize : nat * nat) (_ _ _ _ _ : Q) : ndarray Q :=
  mk_ndarray (fst ksize) (snd ksize) (fun _ _ => 1%Q).
Definition pi : Q := 355 # 113.
Definition filter2D (img : image) (_ : ndarray Q) : image := img.
(** A 16-bit array. *)
Definition astype (_ : image) (v : Z) : Z := (v mod 65536)%Z.
Definition convertScaleAbs (img : image) (_ : Q) : image := img.
Definition otsu_level (_ : image) : Z := 0.
Definition GaussianBlur (img : image) (_ : nat * nat) (_ : Q) : image := img.
Definition ndi_label (img : image) : ndarray Z * nat := (img, 0).
Definition watershed (_ : image) (markers : ndarray Z) (_ : image) : ndarray Z :=
  markers.

Definition findContours (m : image) : list (list (Z * Z)) :=
  let pixels :=
    filter (fun rc => negb (item m (fst rc) (snd rc) =? 0)%Z) (indices m) in
  match pixels with
  | [] => []
  | (r, c) :: _ =>
      let lo v d := Z.of_nat (fold_right Nat.min d v) in
      let hi v := Z.of_nat (fold_right Nat.max 0 v) in
      let rows := map fst pixels in
      let cols := map snd pixels in
      [[(lo cols c, lo rows r); (lo cols c, hi rows);
        (hi cols, hi rows); (hi cols, lo rows r)]]
  end.

(** Markers with two rectangular regions. *)
Definition markers : ndarray Z :=
  mk_ndarray 6 6
    (fun r c =>
       if (1 <=? r) && (r <=? 2) && (1 <=? c) && (c <=? 3) then 1%Z
       else if (r =? 4) && (2 <=? c) && (c <=? 4) then 2%Z
       else 0%Z).

Definition blank : image := mk_ndarray 6 6 (fun _ _ => 0%Z).

End StandIn.

(* ----------------------------------------------------------------- *)
(** ** Further notions for the properties of Part III *)

(** The first component of what the validator returns; a call that
    raises is not valid. *)
Definition is_valid (r : result validation) : bool :=
  match r with
  | Return (valid, _, _, _) => valid
  | Raise _ => false
  end.

(** A second cell, which does not contain the nucleus of the example,
    and a third one, which does. *)
Definition corner_cell : list coord := [(1, 1); (1, 30); (30, 30); (30, 1)]%Q.
Definition wide_cell : list coord := [(5, 5); (5, 95); (95, 95); (95, 5)]%Q.

(** The line [ax.plot(contr[:, 1], contr[:, 0])] draws for a record. *)
Definition plotted_line (rec : boundary_record) : list Q * list Q :=
  (col1 (boundary rec), col0 (boundary rec)).

(** Traced contours for the examples: the two squares, a two-point
    contour and a closed 20x20 square. *)
Definition traced_example : list (list coord) :=
  [square_contour; larger_contour; [(0, 0); (5, 5)]%Q;
   [(0, 0); (20, 0); (20, 20); (0, 20); (0, 0)]%Q].

(** The labels of a label image are below [next], and every positive
    label below [next] is the label of some pixel of the array. *)
Definition labels_up_to (input : mask) (next : nat) (labels : label_image) : Prop :=
  (forall r c, item labels r c < next) /\
  (forall l, 0 < l < next ->
             exists r c, r < nrows input /\ c < ncols input /\ item labels r c = l).

(* ----------------------------------------------------------------- *)
(** ** Engineering notation: [eng_string] *)

(** ['%s' % n] for an integer [n]. *)
Definition str_of_int (n : Z) : string := NilZero.string_of_int (Z.to_int n).

(** [s[i]]: the character at an index, counted from the end when the
    index is negative; [IndexError] outside the string. *)
Definition str_index (s : string) (i : Z) : result string :=
  let n := Z.of_nat (String.length s) in
  let j := if (i <? 0)%Z then (i + n)%Z else i in
  if (0 <=? j)%Z && (j <? n)%Z then
    match String.get (Z.to_nat j) s with
    | Some c => Return (String c EmptyString)
    | None => Raise IndexError
    end
  else Raise IndexError.

Section EngString.

(** [format % v]: the rendering of a float, and of an integer, by the
    printf-style [format] of the caller. *)
Variable format : Q -> string.
Variable format_int : Z -> string.

(** The floating-point steps, which round and can fail:
    [int(math.floor(math.log10(x)))]; [10 ** exp3], which is 0.0 for an
    exponent below the range of the floats; and [x / y], which raises
    [ZeroDivisionError] for a divisor 0. *)
Variable floor_log10 : Q -> result Z.
Variable pow10 : Z -> Q.
Variable truediv : Q -> Q -> result Q.

Definition eng_string (x : Q) (si : bool) : result string :=
  let sign := ""%string in
  if Qeq_bool x 0 then Return (sign ++ format_int 0)%string
  else
    let '(x, sign) := if Qlt_bool x 0 then ((- x)%Q, "-"%string) else (x, sign) in
    exp <- floor_log10 x ;;
    let exp3 := (exp - exp mod 3)%Z in
    x3 <- truediv x (pow10 exp3) ;;
    exp3_text <-
      (if si && (-24 <=? exp3)%Z && (exp3 <=? 24)%Z && negb (exp3 =? 0)%Z then
         str_index "yzafpnum kMGTPEZY" (Z.quot (exp3 - (-24)) 3)
       else if (exp3 =? 0)%Z then Return ""%string
       else Return ("e" ++ str_of_int exp3)%string) ;;
    Return (sign ++ format x3 ++ exp3_text)%string.

End EngString.

(** *** Notions used to state the properties of [eng_string] *)

(** The SI prefixes from yocto to yotta, by their power of ten. *)
Definition si_table : list (Z * string) :=
  [(-24, "y"); (-21, "z"); (-18, "a"); (-15, "f"); (-12, "p"); (-9, "n");
   (-6, "u"); (-3, "m"); (3, "k"); (6, "M"); (9, "G"); (12, "T"); (15, "P");
   (18, "E"); (21, "Z"); (24, "Y")]%Z%string.

Definition si_symbol (exp3 : Z) : option string :=
  option_map snd (find (fun entry => (fst entry =? exp3)%Z) si_table).

(** The sign the result starts with. *)
Definition sign_text (x : Q) : string :=
  if Qlt_bool x 0 then "-"%string else ""%string.

(** The text after the number: nothing for exponent 0, the SI prefix
    when asked for and there is one, the exponent after an "e"
    otherwise. *)
Definition exponent_text (si : bool) (exp3 : Z) : string :=
  if (exp3 =? 0)%Z then ""%string
  else match (if si then si_symbol exp3 else None) with
       | Some symbol => symbol
       | None => ("e" ++ str_of_int exp3)%string
       end.

(** *** The floating-point steps in exact arithmetic, for the examples *)
Module Exact.

(** The search for the decimal exponent of [p / q]: upwards while
    [10 * q <= p], downwards while [p < q]. *)
Fixpoint log10_up (fuel : nat) (p q e : Z) : Z :=
  match fuel with
  | 0 => e
  | S fuel => if (10 * q <=? p)%Z then log10_up fuel p (10 * q) (e + 1) else e
  end.

Fixpoint log10_down (fuel : nat) (p q e : Z) : Z :=
  match fuel with
  | 0 => e
  | S fuel => if (p <? q)%Z then log10_down fuel (10 * p) q (e - 1) else e
  end.

(** The exponent [e] with [10 ^ e <= x < 10 ^ (e + 1)]; [math.log10]
    raises [ValueError] when [x] is not positive. *)
Definition floor_log10 (x : Q) : result Z :=
  if Qlt_bool 0 x then
    let p := Qnum x in
    let q := Z.pos (Qden x) in
    if (q <=? p)%Z then Return (log10_up (S (Z.to_nat (Z.log2 p))) p q 0)
    else Return (log10_down (S (Z.to_nat (Z.log2 q))) p q 0)
  else Raise ValueError.

Definition pow10 (e : Z) : Q := (10 ^ e)%Q.

Definition truediv (x y : Q) : result Q :=
  if Qeq_bool y 0 then Raise ZeroDivisionError else Return (x / y)%Q.

(** A rendering: the numerator and the denominator of the reduced
    fraction. *)
Definition format_fraction (x : Q) : string :=
  (str_of_int (Qnum (Qred x)) ++ "/" ++ str_of_int (Z.pos (Qden (Qred x))))%string.

End Exact.

(* ----------------------------------------------------------------- *)
(** ** Picking a line with the mouse: [distance] and [is_between]
       ([ring/gui/_ring_label.py])

    The square root and the float sums are read as real numbers. *)

(** A [QPoint]: a point with integer coordinates. *)
Record QPoint : Type := mk_QPoint {
  qx : Z;
  qy : Z
}.

(** [np.sqrt(n)] for a Python integer [n] that is not negative: numpy
    takes the integer into a 64-bit array, and raises [TypeError] for
    an integer that fits none, from 2^64 on. *)
Definition np_sqrt (n : Z) : result R :=
  if (n <? 2 ^ 64)%Z then Return (sqrt (IZR n)) else Raise TypeError.

Definition distance (a b : QPoint) : result R :=
  np_sqrt ((qx a - qx b) ^ 2 + (qy a - qy b) ^ 2).

(** [math.isclose(a, b, rel_tol=..., abs_tol=...)]:
    [abs(a - b) <= max(rel_tol * max(abs(a), abs(b)), abs_tol)]. *)
Definition isclose (a b rel_tol abs_tol : R) : bool :=
  if Rle_dec (Rabs (a - b)) (Rmax (rel_tol * Rmax (Rabs a) (Rabs b)) abs_tol)
  then true else false.

(** The default [rel_tol=1e-09]. *)
Definition default_rel_tol : R := (/ 1000000000)%R.

Definition is_between (c a b : QPoint) : result bool :=
  dac <- distance a c ;;
  dcb <- distance c b ;;
  dab <- distance a b ;;
  let dist := (dac + dcb - dab)%R in
  Return (isclose dist 0 default_rel_tol 1).

(** *** Notions used to state the properties of [is_between] *)

(** The square of the distance of two points, an integer, and the
    distance itself. *)
Definition squared_distance (a b : QPoint) : Z :=
  ((qx a - qx b) ^ 2 + (qy a - qy b) ^ 2)%Z.

Definition euclidean (a b : QPoint) : R := sqrt (IZR (squared_distance a b)).

(** The square of the distance fits a 64-bit array. *)
Definition in_reach (a b : QPoint) : Prop := (squared_distance a b < 2 ^ 64)%Z.

(* ================================================================= *)
(** * Part II: properties *)

(* ----------------------------------------------------------------- *)
(** ** Geometric validator *)

Section ValidatorProperties.

Variable contains : geometry -> geometry -> bool.
Variable valid_shell : list coord -> bool.

Lemma frame_rectangle (img : image) : frame img = image_rectangle img.
Proof. reflexivity. Qed.

Lemma well_formed_forallb (records : list boundary_record) :
  forallb (fun rec => valid_shell (boundary rec)) records = true
  <-> well_formed valid_shell records.
Proof.
  unfold well_formed. rewrite forallb_forall, Forall_forall. reflexivity.
Qed.

(** The loop ends with a cell exactly when that cell is the chosen
    one. *)
Lemma cell_loop_returns nuc cell_list init cell :
  cell_loop contains valid_shell nuc cell_list init = Return (Some cell)
  <-> (cell_list = [] /\ init = Some cell)
      \/ chosen_cell contains valid_shell nuc cell_list cell.
Proof.
  revert init; induction cell_list as [|cll rest IH]; intros init.
  - cbn [cell_loop]. split.
    + intros H. left. split; congruence.
    + intros [[_ ->] | (before & c & after & Hsplit & _)]; [reflexivity|].
      now destruct before.
  - cbn [cell_loop]. unfold Polygon_of.
    destruct (valid_shell (boundary cll)) eqn:Hvalid; cbn [bind].
    + destruct (contains (Polygon (boundary cll)) nuc) eqn:Hc.
      * split.
        -- intros H. inversion H; subst. right. exists [], cll, rest.
           exact (conj eq_refl (conj (Forall_nil _) (conj Hvalid
                    (conj eq_refl (or_introl Hc))))).
        -- intros [[H _] | (before & c & after & Hsplit & Hbefore & _ & -> & _)];
             [discriminate|].
           destruct before as [|c0 before].
           ++ simpl in Hsplit. now inversion Hsplit.
           ++ simpl in Hsplit. inversion Hsplit; subst.
              inversion Hbefore as [|? ? [_ Hno] _]; subst.
              unfold cell_polygon in Hno. congruence.
      * rewrite IH. split.
        -- intros [[-> Hcell] | (before & c & after & -> & Hbefore & Hv & -> & Hlast)].
           ++ right. exists [], cll, []. inversion Hcell.
              exact (conj eq_refl (conj (Forall_nil _) (conj Hvalid
                       (conj eq_refl (or_intror eq_refl))))).
           ++ right. exists (cll :: before), c, after.
              exact (conj eq_refl (conj (Forall_cons _ (conj Hvalid Hc) Hbefore)
                       (conj Hv (conj eq_refl Hlast)))).
        -- intros [[H _] | (before & c & after & Hsplit & Hbefore & Hv & -> & Hlast)];
             [discriminate|].
           destruct before as [|c0 before]; simpl in Hsplit; inversion Hsplit; subst.
           ++ destruct Hlast as [Hyes | ->];
                [unfold cell_polygon in Hyes; congruence | now left].
           ++ right. exists before, c, after.
              inversion Hbefore as [|? ? _ Hrest]; subst.
              exact (conj eq_refl (conj Hrest (conj Hv (conj eq_refl Hlast)))).
    + split; [discriminate|].
      intros [[H _] | (before & c & after & Hsplit & Hbefore & Hv & _)];
        [discriminate|].
      destruct before as [|c0 before]; simpl in Hsplit; inversion Hsplit; subst.
      * congruence.
      * inversion Hbefore as [|? ? [Hv0 _] _]; subst. congruence.
Qed.

Lemma cell_loop_chosen nuc cell_list cell :
  cell_loop contains valid_shell nuc cell_list None = Return (Some cell)
  <-> chosen_cell contains valid_shell nuc cell_list cell.
Proof.
  rewrite cell_loop_returns. split; [|now right].
  intros [[_ H] | H]; [discriminate | exact H].
Qed.

(** The variable [cell] is left unbound only by an empty list. *)
Lemma cell_loop_unbound nuc cell_list init :
  cell_loop contains valid_shell nuc cell_list init = Return None
  <-> cell_list = [] /\ init = None.
Proof.
  revert init; induction cell_list as [|cll rest IH]; intros init; cbn [cell_loop].
  - split; [intros H; split; congruence | intros [_ ->]; reflexivity].
  - unfold Polygon_of. destruct (valid_shell (boundary cll)); cbn [bind].
    + destruct (contains (Polygon (boundary cll)) nuc).
      * split; [discriminate | intros [H _]; discriminate].
      * rewrite IH. split; intros [H H']; discriminate.
    + split; [discriminate | intros [H _]; discriminate].
Qed.

(** The loop raises nothing but the [ValueError] of [Polygon]. *)
Lemma cell_loop_raises nuc cell_list init e :
  cell_loop contains valid_shell nuc cell_list init = Raise e -> e = ValueError.
Proof.
  revert init; induction cell_list as [|cll rest IH]; intros init; cbn [cell_loop].
  - discriminate.
  - unfold Polygon_of. destruct (valid_shell (boundary cll)); cbn [bind].
    + destruct (contains (Polygon (boundary cll)) nuc); [discriminate | apply IH].
    + congruence.
Qed.

(** When every cell is built, the loop leaves the first cell that
    contains the nucleus. *)
Lemma cell_loop_found nuc cell_list init cell :
  well_formed valid_shell cell_list ->
  first_containing contains nuc cell_list = Some cell ->
  cell_loop contains valid_shell nuc cell_list init = Return (Some cell).
Proof.
  unfold first_containing, cell_polygon, well_formed.
  revert init; induction cell_list as [|cll rest IH]; intros init Hall; simpl.
  - discriminate.
  - inversion Hall as [|? ? Hv Hrest]; subst. unfold Polygon_of. rewrite Hv.
    cbn [bind]. destruct (contains (Polygon (boundary cll)) nuc); [congruence | auto].
Qed.

(** When every cell is built and none contains the nucleus, the loop
    leaves the last cell, which does not contain it either. *)
Lemma cell_loop_not_found nuc cll rest init :
  well_formed valid_shell (cll :: rest) ->
  first_containing contains nuc (cll :: rest) = None ->
  exists cell,
    cell_loop contains valid_shell nuc (cll :: rest) init = Return (Some cell) /\
    contains cell nuc = false.
Proof.
  unfold first_containing, cell_polygon, well_formed.
  revert cll init; induction rest as [|cll' rest IH]; intros cll init Hall; simpl;
    inversion Hall as [|? ? Hv Hrest]; subst; unfold Polygon_of; rewrite Hv; cbn [bind].
  - destruct (contains (Polygon (boundary cll)) nuc) eqn:Hc; [discriminate|].
    intros _. eauto.
  - destruct (contains (Polygon (boundary cll)) nuc) eqn:Hc; [discriminate|].
    intros Hnone. apply (IH cll' (Some (Polygon (boundary cll))) Hrest Hnone).
Qed.

Lemma first_containing_split nuc before cll after :
  Forall (passed_over contains valid_shell nuc) before ->
  contains (cell_polygon cll) nuc = true ->
  first_containing contains nuc (before ++ cll :: after) = Some (cell_polygon cll).
Proof.
  unfold first_containing. intros Hbefore Hc.
  induction Hbefore as [|c before [_ Hno] _ IH]; simpl.
  - now rewrite Hc.
  - now rewrite Hno.
Qed.

(** The count of the nuclei inside a cell: every nucleus of the list
    is built, whether it lies inside the cell or not. *)
Lemma count_nuclei_filter cell nuclei_list n_nuc :
  count_nuclei contains valid_shell cell nuclei_list n_nuc
  = if forallb (fun ncl => valid_shell (boundary ncl)) nuclei_list
    then Return (n_nuc + nuclei_inside contains cell nuclei_list)
    else Raise ValueError.
Proof.
  unfold nuclei_inside.
  revert n_nuc; induction nuclei_list as [|ncl rest IH]; intros n_nuc; simpl.
  - now rewrite Nat.add_0_r.
  - unfold Polygon_of. destruct (valid_shell (boundary ncl)); cbn [bind andb];
      [|reflexivity].
    rewrite IH. destruct (forallb _ rest); [|reflexivity].
    destruct (contains cell (Polygon (boundary ncl))); simpl; f_equal; lia.
Qed.

Lemma centrosomes_in_filter cell centrosome_list :
  centrosomes_in contains cell centrosome_list
  = centrosomes_inside contains cell centrosome_list.
Proof.
  unfold centrosomes_in, centrosomes_inside.
  enough (H : forall acc,
             fold_left
               (fun clist cen =>
                  if contains cell (Point_of cen) then clist ++ [Point_of cen] else clist)
               centrosome_list acc
             = acc ++ filter (contains cell) (map Point_of centrosome_list))
    by apply (H []).
  induction centrosome_list as [|cen rest IH]; intros acc; simpl.
  - now rewrite app_nil_r.
  - rewrite IH. destruct (contains cell (Point_of cen)); [|reflexivity].
    now rewrite <- app_assoc.
Qed.

(** The call as the choice of the cell followed by the checks. *)
Lemma get_nuclei_features_checks img nuclei cell_list nuclei_list centrosome_list :
  get_nuclei_features contains valid_shell img nuclei cell_list nuclei_list
                      centrosome_list
  = if valid_shell nuclei then
      match cell_loop contains valid_shell (Polygon nuclei) cell_list None with
      | Return (Some cell) =>
          checks_with contains valid_shell img nuclei nuclei_list centrosome_list cell
      | Return None => Raise UnboundLocalError
      | Raise e => Raise e
      end
    else Raise ValueError.
Proof.
  unfold get_nuclei_features, Polygon_of.
  destruct (valid_shell nuclei); cbn [bind]; [|reflexivity].
  destruct (cell_loop contains valid_shell (Polygon nuclei) cell_list None)
    as [[cell|]|e]; reflexivity.
Qed.

(** The checks accept a cell exactly under the four conditions, once
    every nucleus of the list is built. *)
Lemma checks_with_true_iff img nuclei nuclei_list centrosome_list cell
      ocell nuc oclist :
  checks_with contains valid_shell img nuclei nuclei_list centrosome_list cell
  = Return (true, ocell, nuc, oclist)
  <->
  well_formed valid_shell nuclei_list /\
  accepted contains img nuclei nuclei_list centrosome_list cell /\
  ocell = Some cell /\ nuc = Polygon nuclei /\
  oclist = Some (centrosomes_inside contains cell centrosome_list).
Proof.
  unfold checks_with, accepted.
  rewrite frame_rectangle, centrosomes_in_filter, count_nuclei_filter,
    <- well_formed_forallb.
  destruct (contains (image_rectangle img) cell); cbn [negb orb];
    [|split; [discriminate | intros (_ & (H & _) & _); discriminate]].
  destruct (contains cell (Polygon nuclei)); cbn [negb];
    [|split; [discriminate | intros (_ & (_ & H & _) & _); discriminate]].
  destruct (forallb _ nuclei_list); cbn [bind];
    [|split; [discriminate | intros (H & _); discriminate]].
  cbn [Nat.add].
  destruct (Nat.eqb_spec (nuclei_inside contains cell nuclei_list) 1) as [Hn | Hn];
    cbn [negb]; [|split; [discriminate | intros (_ & (_ & _ & H & _) & _); contradiction]].
  destruct (Nat.eqb_spec (length (centrosomes_inside contains cell centrosome_list)) 0)
    as [H0 | H0]; cbn [orb].
  - split; [discriminate | intros (_ & (_ & _ & _ & H) & _); lia].
  - destruct (Nat.ltb_spec 2 (length (centrosomes_inside contains cell centrosome_list)))
      as [H2 | H2].
    + split; [discriminate | intros (_ & (_ & _ & _ & H) & _); lia].
    + split.
      * intros H; inversion H; subst. repeat split; auto. lia.
      * intros (_ & _ & -> & -> & ->). reflexivity.
Qed.

(** The two ways in which the checks reject a cell. *)
Lemma checks_with_false_iff img nuclei nuclei_list centrosome_list cell
      ocell nuc oclist :
  checks_with contains valid_shell img nuclei nuclei_list centrosome_list cell
  = Return (false, ocell, nuc, oclist)
  <->
  nuc = Polygon nuclei /\ oclist = None /\
  ((ocell = Some cell /\
    (contains (image_rectangle img) cell = false \/
     contains cell (Polygon nuclei) = false \/
     (well_formed valid_shell nuclei_list /\
      nuclei_inside contains cell nuclei_list <> 1)))
   \/
   (ocell = None /\
    contains (image_rectangle img) cell = true /\
    contains cell (Polygon nuclei) = true /\
    well_formed valid_shell nuclei_list /\
    nuclei_inside contains cell nuclei_list = 1 /\
    (length (centrosomes_inside contains cell centrosome_list) = 0 \/
     2 < length (centrosomes_inside contains cell centrosome_list)))).
Proof.
  unfold checks_with.
  rewrite frame_rectangle, centrosomes_in_filter, count_nuclei_filter,
    <- well_formed_forallb.
  destruct (contains (image_rectangle img) cell); cbn [negb orb].
  2:{ split.
      - intros H; inversion H; subst.
        exact (conj eq_refl (conj eq_refl (or_introl (conj eq_refl (or_introl eq_refl))))).
      - intros (-> & -> & [[-> _] | (_ & H & _)]); [reflexivity | discriminate]. }
  destruct (contains cell (Polygon nuclei)); cbn [negb].
  2:{ split.
      - intros H; inversion H; subst.
        exact (conj eq_refl (conj eq_refl
                 (or_introl (conj eq_refl (or_intror (or_introl eq_refl)))))).
      - intros (-> & -> & [[-> _] | (_ & _ & H & _)]); [reflexivity | discriminate]. }
  destruct (forallb _ nuclei_list); cbn [bind].
  2:{ split; [discriminate|].
      intros (_ & _ & [[_ [H | [H | [H _]]]] | (_ & _ & _ & H & _)]); discriminate. }
  cbn [Nat.add].
  destruct (Nat.eqb_spec (nuclei_inside contains cell nuclei_list) 1) as [Hn | Hn];
    cbn [negb].
  2:{ split.
      - intros H; inversion H; subst.
        exact (conj eq_refl (conj eq_refl
                 (or_introl (conj eq_refl
                    (or_intror (or_intror (conj eq_refl Hn))))))).
      - intros (-> & -> & [[-> _] | (_ & _ & _ & _ & H & _)]);
          [reflexivity | contradiction]. }
  destruct (Nat.eqb_spec (length (centrosomes_inside contains cell centrosome_list)) 0)
    as [H0 | H0]; cbn [orb].
  - split.
    + intros H; inversion H; subst.
      exact (conj eq_refl (conj eq_refl
               (or_intror (conj eq_refl (conj eq_refl (conj eq_refl
                  (conj eq_refl (conj Hn (or_introl H0))))))))).
    + intros (-> & -> & [[_ [H | [H | [_ H]]]] | (-> & _)]);
        [discriminate | discriminate | contradiction | reflexivity].
  - destruct (Nat.ltb_spec 2 (length (centrosomes_inside contains cell centrosome_list)))
      as [H2 | H2].
    + split.
      * intros H; inversion H; subst.
        exact (conj eq_refl (conj eq_refl
                 (or_intror (conj eq_refl (conj eq_refl (conj eq_refl
                    (conj eq_refl (conj Hn (or_intror H2))))))))).
      * intros (-> & -> & [[_ [H | [H | [_ H]]]] | (-> & _)]);
          [discriminate | discriminate | contradiction | reflexivity].
    + split; [discriminate|].
      intros (_ & _ & [[_ [H | [H | [_ H]]]] | (_ & _ & _ & _ & _ & H)]);
        [discriminate | discriminate | contradiction | lia].
Qed.

End ValidatorProperties.

(** The rejected configurations of the documented example: a second
    nucleus inside the cell, no centrosome, three centrosomes. *)
Example second_nucleus_is_rejected :
  get_nuclei_features Convex.contains Convex.valid_shell img_100 nucleus_square
                      [mk_boundary_record 1 cell_square]
                      [mk_boundary_record 0 nucleus_square;
                       mk_boundary_record 1 [(70, 70); (70, 80); (80, 80); (80, 70)]%Q]
                      [centrosome_50]
  = Return (false, Some (Polygon cell_square), Polygon nucleus_square, None).
Proof. vm_compute. reflexivity. Qed.

Example no_centrosome_is_rejected :
  get_nuclei_features Convex.contains Convex.valid_shell img_100 nucleus_square
                      [mk_boundary_record 1 cell_square]
                      [mk_boundary_record 0 nucleus_square] []
  = Return (false, None, Polygon nucleus_square, None).
Proof. vm_compute. reflexivity. Qed.

Example three_centrosomes_are_rejected :
  get_nuclei_features Convex.contains Convex.valid_shell img_100 nucleus_square
                      [mk_boundary_record 1 cell_square]
                      [mk_boundary_record 0 nucleus_square]
                      [centrosome_50; (20, 20, 1)%Q; (30, 70, 1)%Q]
  = Return (false, None, Polygon nucleus_square, None).
Proof. vm_compute. reflexivity. Qed.

(** A centrosome on the boundary of the cell is not inside it. *)
Example centrosome_on_the_boundary_is_not_counted :
  get_nuclei_features Convex.contains Convex.valid_shell img_100 nucleus_square
                      [mk_boundary_record 1 cell_square]
                      [mk_boundary_record 0 nucleus_square]
                      [(10, 50, 1)%Q]
  = Return (false, None, Polygon nucleus_square, None).
Proof. vm_compute. reflexivity. Qed.

(** A boundary of two points listed before the cell of the example, or
    a nucleus of one point in the nucleus list, makes the call raise the
    [ValueError] of [Polygon]. *)
Example short_boundary_raises :
  get_nuclei_features Convex.contains Convex.valid_shell img_100 nucleus_square
                      [mk_boundary_record 1 [(0, 0); (1, 1)]%Q;
                       mk_boundary_record 2 cell_square]
                      [mk_boundary_record 0 nucleus_square]
                      [centrosome_50]
  = Raise ValueError
  /\
  get_nuclei_features Convex.contains Convex.valid_shell img_100 nucleus_square
                      [mk_boundary_record 1 cell_square]
                      [mk_boundary_record 0 nucleus_square;
                       mk_boundary_record 1 [(1, 1)]%Q]
                      [centrosome_50]
  = Raise ValueError.
Proof. split; vm_compute; reflexivity. Qed.

(** C1 (as the claim states it, refuted).  A boundary of two points,
    such as the contour of a cell of two pixels, listed before the cell
    of the documented example: the first cell that contains the
    candidate nucleus is the cell of the example, and the four
    conditions hold for it, yet the call raises the [ValueError] of
    [Polygon] and returns no valid tuple. *)
Lemma short_cell_before_the_chosen_one_raises :
  first_containing Convex.contains (Polygon nucleus_square)
                   [mk_boundary_record 1 [(0, 0); (1, 1)]%Q;
                    mk_boundary_record 2 cell_square]
  = Some (Polygon cell_square)
  /\
  accepted Convex.contains img_100 nucleus_square
           [mk_boundary_record 0 nucleus_square] [centrosome_50]
           (Polygon cell_square)
  /\
  get_nuclei_features Convex.contains Convex.valid_shell img_100 nucleus_square
                      [mk_boundary_record 1 [(0, 0); (1, 1)]%Q;
                       mk_boundary_record 2 cell_square]
                      [mk_boundary_record 0 nucleus_square] [centrosome_50]
  = Raise ValueError.
Proof.
  split; [vm_compute; reflexivity|]. split; [|vm_compute; reflexivity].
  unfold accepted, nuclei_inside, centrosomes_inside.
  split; [vm_compute; reflexivity|]. split; [vm_compute; reflexivity|].
  split; [vm_compute; reflexivity|]. left. vm_compute. reflexivity.
Qed.

(** C1 (amended).  [get_nuclei_features] returns a tuple with
    [valid = true] exactly when the candidate nucleus, the cells up to
    the chosen one and every entry of the nucleus list are polygons
    that shapely builds, the chosen cell is the first cell of the list
    that contains the candidate nucleus, and the four conditions hold:
    the frame (the rectangle of the image) contains the chosen cell,
    the cell contains the candidate nucleus, exactly one entry of the
    full nucleus list is contained in the cell, and one or two
    centrosome points are contained in the cell.  The tuple is then
    (true, that cell, the candidate nucleus, the centrosome points
    inside the cell).  On the documented example (100x100 frame, cell
    square (10,10)-(90,90), nucleus square (40,40)-(60,60), one
    centrosome at (50,50)) the result is valid, with that cell, that
    nucleus and a one-element centrosome list. *)
Theorem get_nuclei_features_valid_iff :
  (forall contains valid_shell img nuclei cell_list nuclei_list centrosome_list
          ocell nuc oclist,
      get_nuclei_features contains valid_shell img nuclei cell_list nuclei_list
                          centrosome_list
      = Return (true, ocell, nuc, oclist)
      <->
      exists before cll after,
        cell_list = before ++ cll :: after /\
        valid_shell nuclei = true /\
        Forall (passed_over contains valid_shell (Polygon nuclei)) before /\
        valid_shell (boundary cll) = true /\
        well_formed valid_shell nuclei_list /\
        first_containing contains (Polygon nuclei) cell_list
        = Some (cell_polygon cll) /\
        accepted contains img nuclei nuclei_list centrosome_list (cell_polygon cll) /\
        ocell = Some (cell_polygon cll) /\ nuc = Polygon nuclei /\
        oclist = Some (centrosomes_inside contains (cell_polygon cll) centrosome_list))
  /\
  get_nuclei_features Convex.contains Convex.valid_shell img_100 nucleus_square
                      [mk_boundary_record 1 cell_square]
                      [mk_boundary_record 0 nucleus_square]
                      [centrosome_50]
  = Return (true, Some (Polygon cell_square), Polygon nucleus_square,
            Some [Point_of centrosome_50]).
Proof.
  split; [|vm_compute; reflexivity].
  intros. rewrite get_nuclei_features_checks. split.
  - destruct (valid_shell nuclei) eqn:Hnuc; [|discriminate].
    destruct (cell_loop contains valid_shell (Polygon nuclei) cell_list None)
      as [[cell|]|e] eqn:Hloop; [|discriminate|discriminate].
    intros Hchecks. apply checks_with_true_iff in Hchecks.
    destruct Hchecks as (Hwf & Hacc & -> & -> & ->).
    apply cell_loop_chosen in Hloop.
    destruct Hloop as (before & cll & after & -> & Hbefore & Hv & -> & _).
    exists before, cll, after.
    refine (conj eq_refl (conj eq_refl (conj Hbefore (conj Hv (conj Hwf
              (conj _ (conj Hacc (conj eq_refl (conj eq_refl eq_refl))))))))).
    apply first_containing_split with (valid_shell := valid_shell); [exact Hbefore|].
    apply Hacc.
  - intros (before & cll & after & -> & -> & Hbefore & Hv & Hwf & _ & Hacc
            & -> & -> & ->).
    assert (Hloop : cell_loop contains valid_shell (Polygon nuclei)
                              (before ++ cll :: after) None
                    = Return (Some (cell_polygon cll))).
    { apply cell_loop_chosen. exists before, cll, after.
      exact (conj eq_refl (conj Hbefore (conj Hv
               (conj eq_refl (or_introl (proj1 (proj2 Hacc))))))). }
    rewrite Hloop. apply checks_with_true_iff.
    exact (conj Hwf (conj Hacc (conj eq_refl (conj eq_refl eq_refl)))).
Qed.

(** C2 (the code departs from it).  With an empty cell list the
    variable [cell] is never bound: once the candidate nucleus is
    built, the call raises [UnboundLocalError] instead of returning an
    invalid tuple (and the [ValueError] of [Polygon] when the candidate
    is not built).  The empty list is the only input on which the call
    raises [UnboundLocalError]. *)
Theorem get_nuclei_features_raises_on_empty_cell_list :
  forall contains valid_shell img nuclei cell_list nuclei_list centrosome_list,
    get_nuclei_features contains valid_shell img nuclei [] nuclei_list centrosome_list
    = (if valid_shell nuclei then Raise UnboundLocalError else Raise ValueError)
    /\
    (get_nuclei_features contains valid_shell img nuclei cell_list nuclei_list
                         centrosome_list
     = Raise UnboundLocalError
     <-> valid_shell nuclei = true /\ cell_list = []).
Proof.
  intros contains valid_shell img nuclei cell_list nuclei_list centrosome_list.
  split; [rewrite get_nuclei_features_checks; reflexivity|].
  rewrite get_nuclei_features_checks. split.
  - destruct (valid_shell nuclei); [|discriminate].
    destruct (cell_loop contains valid_shell (Polygon nuclei) cell_list None)
      as [[cell|]|e] eqn:Hloop.
    + unfold checks_with. rewrite count_nuclei_filter.
      repeat match goal with
             | |- context [if ?b then _ else _] => destruct b; cbn [bind]
             end; discriminate.
    + intros _. apply cell_loop_unbound in Hloop. now split.
    + apply cell_loop_raises in Hloop. subst. discriminate.
  - intros [-> ->]. reflexivity.
Qed.

(** C3 (the code departs from it on the empty list).  For a candidate
    nucleus and cells that shapely builds: when some cell of the list
    contains the candidate nucleus, the first such cell in list order
    is the cell the loop leaves, and every later check is made with it.
    When no cell contains the nucleus and the list is not empty, the
    call returns an invalid tuple; when the list is empty it raises
    [UnboundLocalError] instead. *)
Theorem first_containing_cell_is_chosen :
  forall contains valid_shell img nuclei cell_list nuclei_list centrosome_list,
    valid_shell nuclei = true ->
    well_formed valid_shell cell_list ->
    match first_containing contains (Polygon nuclei) cell_list with
    | Some cell =>
        cell_loop contains valid_shell (Polygon nuclei) cell_list None
        = Return (Some cell) /\
        get_nuclei_features contains valid_shell img nuclei cell_list nuclei_list
                            centrosome_list
        = checks_with contains valid_shell img nuclei nuclei_list centrosome_list cell
    | None =>
        match cell_list with
        | [] =>
            get_nuclei_features contains valid_shell img nuclei cell_list nuclei_list
                                centrosome_list
            = Raise UnboundLocalError
        | _ :: _ =>
            exists cell,
              get_nuclei_features contains valid_shell img nuclei cell_list
                                  nuclei_list centrosome_list
              = Return (false, Some cell, Polygon nuclei, None)
        end
    end.
Proof.
  intros contains valid_shell img nuclei cell_list nuclei_list centrosome_list
         Hnuc Hcells.
  rewrite !get_nuclei_features_checks, Hnuc.
  destruct (first_containing contains (Polygon nuclei) cell_list) as [cell|] eqn:Hf.
  - rewrite (@cell_loop_found contains valid_shell (Polygon nuclei) cell_list None
                              cell Hcells Hf). auto.
  - destruct cell_list as [|cll rest]; [reflexivity|].
    destruct (@cell_loop_not_found contains valid_shell (Polygon nuclei) cll rest
                                   None Hcells Hf)
      as (cell & Hloop & Hno).
    rewrite Hloop. exists cell. unfold checks_with. rewrite Hno.
    now rewrite orb_true_r.
Qed.

(** The statement above for the cell list of the example preceded by a
    cell that does not contain the nucleus and followed by a larger
    one that does. *)
Lemma first_containing_cell_is_chosen_witness :
  get_nuclei_features Convex.contains Convex.valid_shell img_100 nucleus_square
                      [mk_boundary_record 1 corner_cell;
                       mk_boundary_record 2 cell_square;
                       mk_boundary_record 3 wide_cell]
                      [mk_boundary_record 0 nucleus_square] [centrosome_50]
  = checks_with Convex.contains Convex.valid_shell img_100 nucleus_square
                [mk_boundary_record 0 nucleus_square] [centrosome_50]
                (Polygon cell_square).
Proof.
  assert (Hcells : well_formed Convex.valid_shell
                     [mk_boundary_record 1 corner_cell;
                      mk_boundary_record 2 cell_square;
                      mk_boundary_record 3 wide_cell])
    by (repeat constructor).
  pose proof (@first_containing_cell_is_chosen
                Convex.contains Convex.valid_shell img_100 nucleus_square
                [mk_boundary_record 1 corner_cell;
                 mk_boundary_record 2 cell_square;
                 mk_boundary_record 3 wide_cell]
                [mk_boundary_record 0 nucleus_square] [centrosome_50]
                eq_refl Hcells) as H.
  exact (proj2 H).
Defined.

(* ----------------------------------------------------------------- *)
(** ** Coordinate transform *)

#[export] Instance coord_eq_Equivalence : Equivalence coord_eq.
Proof.
  split.
  - intros [x y]; split; reflexivity.
  - intros p q [H1 H2]; split; symmetry; assumption.
  - intros p q r [H1 H2] [H3 H4]; split; etransitivity; eassumption.
Qed.

Lemma apply_tform_rotation (a b : Q) :
  coord_eq (apply_tform tform (a, b)) (- b, a)%Q.
Proof. split; simpl; ring. Qed.

Lemma to_frame_swap (a b : Q) : coord_eq (to_frame (a, b)) (b, a).
Proof. split; simpl; ring. Qed.

Lemma to_frame_involutive (p : coord) : coord_eq (to_frame (to_frame p)) p.
Proof. destruct p as [a b]; split; simpl; ring. Qed.

Lemma from_frame_to_frame (p : coord) : coord_eq (from_frame (to_frame p)) p.
Proof. destruct p as [a b]; split; simpl; field. Qed.

Lemma to_frame_from_frame (p : coord) : coord_eq (to_frame (from_frame p)) p.
Proof. destruct p as [a b]; split; simpl; field. Qed.

(** [inverse] undoes any similarity transform whose matrix is
    invertible. *)
Lemma apply_tform_inverse (t : SimilarityTransform) (p : coord) :
  ~ (m_a t * m_a t + m_b t * m_b t == 0)%Q ->
  coord_eq (apply_tform (inverse t) (apply_tform t p)) p.
Proof.
  intros Hdet. destruct p as [x y]. split; simpl; field; exact Hdet.
Qed.

Lemma poly_eq_map (f g : coord -> coord) (contr : list coord) :
  (forall p, coord_eq (f p) (g p)) -> poly_eq (map f contr) (map g contr).
Proof.
  intros H. unfold poly_eq. induction contr; simpl; constructor; auto.
Qed.

(** C8.  The correction of [nuclei_features] and [centrosomes] (rotation
    by a quarter turn, then the sign flip of the first coordinate) and
    its inverse (the sign flip undone, then the inverse rotation)
    compose to the identity in both orders, on a point and on every
    vertex of a polygon; the floats are read as exact numbers, so
    nothing is lost at all. *)
Theorem frame_correction_round_trip :
  (forall p : coord,
      coord_eq (from_frame (to_frame p)) p /\ coord_eq (to_frame (from_frame p)) p)
  /\
  (forall contr : list coord,
      poly_eq (map from_frame (map to_frame contr)) contr /\
      poly_eq (map to_frame (map from_frame contr)) contr).
Proof.
  split.
  - intros p. split; [apply from_frame_to_frame | apply to_frame_from_frame].
  - intros contr. rewrite !map_map. split.
    + rewrite <- (map_id contr) at 2. apply poly_eq_map, from_frame_to_frame.
    + rewrite <- (map_id contr) at 2. apply poly_eq_map, to_frame_from_frame.
Qed.

(* ----------------------------------------------------------------- *)
(** ** Contour extractor *)

Lemma Qlt_bool_iff (x y : Q) : Qlt_bool x y = true <-> (x < y)%Q.
Proof.
  unfold Qlt_bool. rewrite negb_true_iff, <- not_true_iff_false, Qle_bool_iff.
  split; [apply Qnot_le_lt | apply Qlt_not_le].
Qed.

Section ContourProperties.

Variable find_contours : image -> Q -> list (list coord).

Lemma nuclei_features_records image ax area_thresh :
  fst (nuclei_features find_contours image ax area_thresh)
  = map (fun kc => mk_boundary_record (Z.of_nat (fst kc)) (map to_frame (snd kc)))
        (kept area_thresh (find_contours image (9 # 10))).
Proof.
  unfold nuclei_features, kept.
  generalize (enumerate (find_contours image (9 # 10))) as l.
  enough (H : forall (l : list (nat * list coord)) acc ax0,
             fst (fold_left
                    (fun (st : list boundary_record * option axes)
                         (kc : nat * list coord) =>
                       let '(_list, ax) := st in
                       let '(k, contr) := kc in
                       if Qlt_bool area_thresh (polygon_area (col0 contr) (col1 contr))
                       then
                         let contr := map (apply_tform tform) contr in
                         let contr := map flip_first contr in
                         (_list ++ [mk_boundary_record (Z.of_nat k) contr],
                          match ax with
                          | Some lines => Some (lines ++ [(col1 contr, col0 contr)])
                          | None => None
                          end)
                       else st) l (acc, ax0))
             = acc ++ map (fun kc => mk_boundary_record (Z.of_nat (fst kc))
                                                        (map to_frame (snd kc)))
                          (filter (fun kc => Qlt_bool area_thresh (contour_area (snd kc)))
                                  l)) by (intros l; apply (H l [] ax)).
  induction l as [|[k contr] l IH]; intros acc ax0; simpl.
  - now rewrite app_nil_r.
  - unfold contour_area at 1. simpl.
    destruct (Qlt_bool area_thresh (polygon_area (col0 contr) (col1 contr))).
    + rewrite IH, <- app_assoc. simpl. now rewrite map_map.
    + apply IH.
Qed.

End ContourProperties.

(** *** The shoelace area and the correction *)

Lemma dot_Qeq (x x' y y' : list Q) :
  Forall2 Qeq x x' -> Forall2 Qeq y y' -> (dot x y == dot x' y')%Q.
Proof.
  unfold dot. intros Hx; revert y y'.
  induction Hx as [|a a' x x' Ha Hx IH]; intros y y' Hy; simpl; [reflexivity|].
  destruct Hy as [|b b' y y' Hb Hy]; simpl; [reflexivity|].
  rewrite Ha, Hb, (IH _ _ Hy). reflexivity.
Qed.

Lemma last_Qeq (v v' : list Q) (d : Q) :
  Forall2 Qeq v v' -> (last v d == last v' d)%Q.
Proof.
  induction 1 as [|a a' v v' Ha Hv IH]; simpl; [reflexivity|].
  destruct Hv; [exact Ha | exact IH].
Qed.

Lemma removelast_Qeq (v v' : list Q) :
  Forall2 Qeq v v' -> Forall2 Qeq (removelast v) (removelast v').
Proof.
  induction 1 as [|a a' v v' Ha Hv IH]; simpl; [constructor|].
  destruct Hv; [constructor | constructor; assumption].
Qed.

Lemma roll1_Qeq (v v' : list Q) :
  Forall2 Qeq v v' -> Forall2 Qeq (roll1 v) (roll1 v').
Proof.
  intros H. unfold roll1. destruct H as [|a a' v v' Ha Hv]; [constructor|].
  constructor.
  - apply last_Qeq. now constructor.
  - apply removelast_Qeq. now constructor.
Qed.

Lemma polygon_area_Qeq (x x' y y' : list Q) :
  Forall2 Qeq x x' -> Forall2 Qeq y y' ->
  (polygon_area x y == polygon_area x' y')%Q.
Proof.
  intros Hx Hy. unfold polygon_area.
  rewrite (dot_Qeq Hx (roll1_Qeq Hy)), (dot_Qeq Hy (roll1_Qeq Hx)). reflexivity.
Qed.

Lemma polygon_area_sym (x y : list Q) :
  (polygon_area x y == polygon_area y x)%Q.
Proof.
  unfold polygon_area.
  now rewrite (Qabs_Qminus (dot x (roll1 y)) (dot y (roll1 x))).
Qed.

Lemma col0_to_frame (contr : list coord) :
  Forall2 Qeq (col0 (map to_frame contr)) (col1 contr).
Proof.
  unfold col0, col1. induction contr as [|[a b] contr IH]; simpl; constructor; auto.
  ring.
Qed.

Lemma col1_to_frame (contr : list coord) :
  Forall2 Qeq (col1 (map to_frame contr)) (col0 contr).
Proof.
  unfold col0, col1. induction contr as [|[a b] contr IH]; simpl; constructor; auto.
  ring.
Qed.

(** The correction swaps the columns, which leaves the shoelace area
    unchanged. *)
Lemma contour_area_to_frame (contr : list coord) :
  (contour_area (map to_frame contr) == contour_area contr)%Q.
Proof.
  unfold contour_area.
  rewrite (polygon_area_Qeq (col0_to_frame contr) (col1_to_frame contr)).
  apply polygon_area_sym.
Qed.

Lemma enumerate_In {A} (l : list A) (k : nat) (x : A) :
  In (k, x) (enumerate l) <-> nth_error l k = Some x.
Proof.
  unfold enumerate.
  enough (H : forall s, In (k, x) (combine (seq s (length l)) l)
                        <-> s <= k /\ nth_error l (k - s) = Some x).
  { rewrite H, Nat.sub_0_r. intuition lia. }
  induction l as [|y l IH]; intros s; simpl.
  - split; [tauto | intros [_ H]; destruct (k - s); discriminate].
  - rewrite IH. split.
    + intros [H | [Hle H]].
      * inversion H; subst. rewrite Nat.sub_diag. auto.
      * split; [lia|]. replace (k - s) with (S (k - S s)) by lia. exact H.
    + intros [Hle H]. destruct (Nat.eq_dec s k) as [-> | Hne].
      * rewrite Nat.sub_diag in H. simpl in H. left. congruence.
      * right. split; [lia|].
        replace (k - s) with (S (k - S s)) in H by lia. exact H.
Qed.

(** C7 (as the claim states it, refuted).  A contour whose shoelace
    area equals the threshold is not below the threshold, and yet it is
    discarded. *)
Lemma contour_at_threshold_is_discarded :
  (contour_area square_contour == default_area_thresh)%Q /\
  ~ (contour_area square_contour < default_area_thresh)%Q /\
  fst (nuclei_features (fun _ _ => [square_contour]) img_100 None default_area_thresh)
  = [].
Proof.
  split; [reflexivity|]. split; [discriminate|]. vm_compute. reflexivity.
Qed.

(** C7 (amended).  A traced contour is kept exactly when its shoelace
    area is strictly above the threshold, i.e. discarded exactly when
    the area is at most the threshold: the records returned are those
    of the contours of area above the threshold, each with its position
    among the traced contours as id and its corrected vertices as
    boundary.  Consequently every returned boundary has shoelace area
    strictly above (hence at least) the threshold. *)
Theorem nuclei_features_keeps_area_above_threshold :
  forall find_contours image ax area_thresh,
    (forall rec,
        In rec (fst (nuclei_features find_contours image ax area_thresh))
        <->
        exists k contr,
          nth_error (find_contours image (9 # 10)) k = Some contr /\
          (area_thresh < contour_area contr)%Q /\
          rec = mk_boundary_record (Z.of_nat k) (map to_frame contr))
    /\
    (forall rec,
        In rec (fst (nuclei_features find_contours image ax area_thresh)) ->
        (area_thresh < contour_area (boundary rec))%Q /\
        (area_thresh <= contour_area (boundary rec))%Q).
Proof.
  intros find_contours image ax area_thresh.
  assert (Hiff : forall rec,
             In rec (fst (nuclei_features find_contours image ax area_thresh))
             <->
             exists k contr,
               nth_error (find_contours image (9 # 10)) k = Some contr /\
               (area_thresh < contour_area contr)%Q /\
               rec = mk_boundary_record (Z.of_nat k) (map to_frame contr)).
  { intros rec. rewrite nuclei_features_records, in_map_iff. unfold kept. split.
    - intros ([k contr] & <- & Hin). apply filter_In in Hin. destruct Hin as [Hin Hlt].
      exists k, contr. simpl in *. rewrite enumerate_In in Hin.
      rewrite Qlt_bool_iff in Hlt. auto.
    - intros (k & contr & Hnth & Hlt & ->). exists (k, contr). split; [reflexivity|].
      apply filter_In. simpl. rewrite enumerate_In, Qlt_bool_iff. auto. }
  split; [exact Hiff|].
  intros rec Hin. apply Hiff in Hin. destruct Hin as (k & contr & _ & Hlt & ->).
  simpl. rewrite contour_area_to_frame. split; [exact Hlt | now apply Qlt_le_weak].
Qed.

(** The statement above for a tracer that finds the 11x11 square: its
    record is returned, and its area is above the default threshold. *)
Lemma nuclei_features_keeps_area_above_threshold_witness :
  (default_area_thresh
   < contour_area
       (boundary (mk_boundary_record 0 (map to_frame larger_contour))))%Q.
Proof.
  refine (proj1 (proj2 (nuclei_features_keeps_area_above_threshold
                          (fun _ _ => [larger_contour])
                          img_100 None default_area_thresh) _ _)).
  vm_compute. left. reflexivity.
Defined.

(** C10.  In exact arithmetic the rotation of
    [SimilarityTransform(rotation=pi/2)] maps (a, b) to (-b, a); followed
    by the sign flip of the first coordinate it is the swap
    (a, b) |-> (b, a), so applying the correction twice gives the point
    back.  Both [nuclei_features] (on every vertex of every returned
    boundary) and [centrosomes] (on the first two columns of every
    blob) apply exactly this correction. *)
Theorem frame_correction_is_swap :
  (forall a b : Q,
      coord_eq (apply_tform tform (a, b)) (- b, a)%Q /\
      coord_eq (to_frame (a, b)) (b, a) /\
      coord_eq (to_frame (to_frame (a, b))) (a, b))
  /\
  (forall find_contours image ax area_thresh,
      Forall (fun rec =>
                exists contr,
                  In contr (find_contours image (9 # 10)) /\
                  boundary rec = map to_frame contr)
             (fst (nuclei_features find_contours image ax area_thresh)))
  /\
  (forall blob_doh sqrt2 image max_sigma,
      centrosomes blob_doh sqrt2 image max_sigma
      = map (fun b : blob =>
               let '(r, c, s) := b in
               (fst (to_frame (r, c)), snd (to_frame (r, c)), (s * sqrt2)%Q))
            (blob_doh image (5 # 100) max_sigma 10 (1 # 10))).
Proof.
  split; [|split].
  - intros a b. split; [apply apply_tform_rotation|].
    split; [apply to_frame_swap | apply to_frame_involutive].
  - intros find_contours image ax area_thresh. apply Forall_forall. intros rec Hin.
    rewrite nuclei_features_records, in_map_iff in Hin.
    destruct Hin as ([k contr] & <- & Hin). unfold kept in Hin.
    apply filter_In in Hin. destruct Hin as [Hin _].
    apply enumerate_In, nth_error_In in Hin. exists contr. auto.
  - intros blob_doh sqrt2 image max_sigma. unfold centrosomes.
    rewrite !map_map. apply map_ext. intros [[r c] s]. reflexivity.
Qed.

(* ----------------------------------------------------------------- *)
(** ** Arrays *)

Lemma indices_In {A} (a : ndarray A) (r c : nat) :
  In (r, c) (indices a) <-> r < nrows a /\ c < ncols a.
Proof.
  unfold indices. rewrite in_prod_iff, !in_seq. lia.
Qed.

Lemma ravel_In {A} (a : ndarray A) (v : A) :
  In v (ravel a) <-> exists r c, r < nrows a /\ c < ncols a /\ item a r c = v.
Proof.
  unfold ravel. rewrite in_map_iff. split.
  - intros ([r c] & Hv & Hin). apply indices_In in Hin. exists r, c. tauto.
  - intros (r & c & Hr & Hc & Hv). exists (r, c). rewrite indices_In. auto.
Qed.

Lemma ravel_empty {A} (a : ndarray A) :
  nrows a * ncols a = 0 -> ravel a = [].
Proof.
  intros H. unfold ravel, indices.
  assert (Hlen : length (list_prod (seq 0 (nrows a)) (seq 0 (ncols a))) = 0)
    by now rewrite length_prod, !length_seq.
  destruct (list_prod _ _); [reflexivity | discriminate].
Qed.

(* ----------------------------------------------------------------- *)
(** ** Labelling and border clearing *)

Lemma flood_shape fuel connectivity input l work labels :
  shape (Skimage.flood fuel connectivity input l work labels) = shape labels.
Proof.
  revert work labels; induction fuel as [|fuel IH]; intros work labels; simpl.
  - reflexivity.
  - destruct work as [|[r c] work]; [reflexivity|].
    destruct (_ && _); rewrite IH; reflexivity.
Qed.

Lemma flood_foreground fuel connectivity input l work labels :
  labels_foreground input labels ->
  labels_foreground input (Skimage.flood fuel connectivity input l work labels).
Proof.
  revert work labels; induction fuel as [|fuel IH]; intros work labels Hinv; simpl.
  - exact Hinv.
  - destruct work as [|[r c] work]; [exact Hinv|].
    destruct ((r <? nrows input) && (c <? ncols input) && item input r c
              && (item labels r c =? 0)) eqn:Hcond.
    + apply IH. intros r' c'. simpl.
      destruct ((r' =? r) && (c' =? c)) eqn:Heq.
      * intros _. apply andb_prop in Heq. destruct Heq as [Hr Hc].
        apply Nat.eqb_eq in Hr, Hc. subst r' c'.
        repeat (apply andb_prop in Hcond; destruct Hcond as [Hcond ?]).
        apply Nat.ltb_lt in Hcond. repeat split; auto. now apply Nat.ltb_lt.
      * apply Hinv.
    + apply IH, Hinv.
Qed.

Lemma label_scan_shape connectivity input pixels next labels :
  shape (Skimage.label_scan connectivity input pixels next labels) = shape labels.
Proof.
  revert next labels; induction pixels as [|[r c] pixels IH]; intros next labels;
    cbn [Skimage.label_scan].
  - reflexivity.
  - destruct (_ && _); rewrite IH; [apply flood_shape | reflexivity].
Qed.

Lemma label_scan_foreground connectivity input pixels next labels :
  labels_foreground input labels ->
  labels_foreground input (Skimage.label_scan connectivity input pixels next labels).
Proof.
  revert next labels; induction pixels as [|[r c] pixels IH]; intros next labels Hinv;
    cbn [Skimage.label_scan].
  - exact Hinv.
  - destruct (_ && _); apply IH; [now apply flood_foreground | exact Hinv].
Qed.

Lemma label_shape input connectivity :
  shape (Skimage.label input connectivity) = shape input.
Proof. unfold Skimage.label. now rewrite label_scan_shape. Qed.

Lemma label_nrows input connectivity :
  nrows (Skimage.label input connectivity) = nrows input.
Proof. exact (f_equal fst (label_shape input connectivity)). Qed.

Lemma label_ncols input connectivity :
  ncols (Skimage.label input connectivity) = ncols input.
Proof. exact (f_equal snd (label_shape input connectivity)). Qed.

Lemma label_foreground input connectivity :
  labels_foreground input (Skimage.label input connectivity).
Proof.
  unfold Skimage.label. apply label_scan_foreground.
  intros r c H. simpl in H. congruence.
Qed.

(** Conversely every foreground pixel is labelled: a label, once given,
    stays, and the scan seeds a flood at every foreground pixel it finds
    unlabelled. *)
Lemma flood_keeps fuel connectivity input l work labels r c :
  l <> 0 -> item labels r c <> 0 ->
  item (Skimage.flood fuel connectivity input l work labels) r c <> 0.
Proof.
  intros Hl. revert work labels; induction fuel as [|fuel IH]; intros work labels H;
    simpl; auto.
  destruct work as [|[r0 c0] work]; auto.
  destruct (_ && _).
  - apply IH. simpl. destruct ((r =? r0) && (c =? c0)); auto.
  - apply IH, H.
Qed.

Lemma flood_seed fuel connectivity input l r c labels :
  l <> 0 -> r < nrows input -> c < ncols input -> item input r c = true ->
  item (Skimage.flood (S fuel) connectivity input l [(r, c)] labels) r c <> 0.
Proof.
  intros Hl Hr Hc Hfg. destruct (Nat.eq_dec (item labels r c) 0) as [H0 | Hne].
  - simpl. apply Nat.ltb_lt in Hr, Hc. rewrite Hr, Hc, Hfg, H0. simpl.
    apply flood_keeps; auto. simpl. now rewrite !Nat.eqb_refl.
  - now apply flood_keeps.
Qed.

Lemma label_scan_keeps connectivity input pixels next labels r c :
  next <> 0 -> item labels r c <> 0 ->
  item (Skimage.label_scan connectivity input pixels next labels) r c <> 0.
Proof.
  revert next labels; induction pixels as [|[r0 c0] pixels IH]; intros next labels Hn H;
    cbn [Skimage.label_scan]; auto.
  destruct (_ && _); apply IH; auto. now apply flood_keeps.
Qed.

Lemma label_scan_labels connectivity input pixels next labels r c :
  next <> 0 -> In (r, c) pixels ->
  r < nrows input -> c < ncols input -> item input r c = true ->
  item (Skimage.label_scan connectivity input pixels next labels) r c <> 0.
Proof.
  revert next labels; induction pixels as [|[r0 c0] pixels IH];
    intros next labels Hn Hin Hr Hc Hfg; [destruct Hin|].
  cbn [Skimage.label_scan]. destruct Hin as [Heq | Hin].
  - inversion Heq; subst r0 c0. rewrite Hfg. cbn [andb].
    destruct (item labels r c =? 0) eqn:H0.
    + apply label_scan_keeps; auto. now apply flood_seed.
    + apply label_scan_keeps; auto. now apply Nat.eqb_neq.
  - destruct (_ && _); apply IH; auto.
Qed.

(** [label] gives a positive label to exactly the foreground pixels. *)
Lemma label_positive_iff input connectivity r c :
  r < nrows input -> c < ncols input ->
  (item (Skimage.label input connectivity) r c <> 0 <-> item input r c = true).
Proof.
  intros Hr Hc. split.
  - intros H. now apply label_foreground in H.
  - intros Hfg. unfold Skimage.label.
    apply label_scan_labels; auto. now apply indices_In.
Qed.

(** Two components under 8-connectivity, three under 4-connectivity;
    border clearing removes the component that touches the first row. *)
Example label_8_connected :
  ravel (Skimage.label
           (of_rows false [[false; false; false; true;  false];
                           [false; true;  false; false; true ];
                           [false; true;  true;  false; false];
                           [false; false; false; false; false]]) 2)
  = [0; 0; 0; 1; 0;
     0; 2; 0; 0; 1;
     0; 2; 2; 0; 0;
     0; 0; 0; 0; 0].
Proof. vm_compute. reflexivity. Qed.

Example label_4_connected :
  ravel (Skimage.label
           (of_rows false [[false; false; false; true;  false];
                           [false; true;  false; false; true ];
                           [false; true;  true;  false; false];
                           [false; false; false; false; false]]) 1)
  = [0; 0; 0; 1; 0;
     0; 2; 0; 0; 3;
     0; 2; 2; 0; 0;
     0; 0; 0; 0; 0].
Proof. vm_compute. reflexivity. Qed.

Example clear_border_removes_touching_component :
  ravel (Skimage.clear_border
           (of_rows false [[false; false; false; true;  false];
                           [false; true;  false; false; true ];
                           [false; true;  true;  false; false];
                           [false; false; false; false; false]]))
  = [false; false; false; false; false;
     false; true;  false; false; false;
     false; true;  true;  false; false;
     false; false; false; false; false].
Proof. vm_compute. reflexivity. Qed.

Lemma clear_border_shape (input : mask) :
  shape (Skimage.clear_border input) = shape input.
Proof. reflexivity. Qed.

(** Border clearing leaves no foreground pixel on the border. *)
Lemma clear_border_border (input : mask) (r c : nat) :
  r < nrows input -> c < ncols input -> on_border input r c = true ->
  item (Skimage.clear_border input) r c = false.
Proof.
  intros Hr Hc Hb. unfold Skimage.clear_border. simpl.
  match goal with |- (if ?b then _ else _) = _ => assert (Hex : b = true) end.
  { apply existsb_exists. exists (item (Skimage.label input 2) r c).
    split; [|apply Nat.eqb_refl].
    apply in_map_iff. exists (r, c). split; [reflexivity|].
    apply filter_In. split; [now apply indices_In | exact Hb]. }
  now rewrite Hex.
Qed.

Lemma on_border_spec {A} (a : ndarray A) (r c : nat) :
  r < nrows a -> c < ncols a ->
  (on_border a r c = true
   <-> r = 0 \/ r = nrows a - 1 \/ c = 0 \/ c = ncols a - 1).
Proof.
  intros Hr Hc. unfold on_border.
  rewrite !orb_true_iff, !Nat.eqb_eq. lia.
Qed.

(** The label image of a border-cleared mask is background all along
    the border. *)
Lemma label_clear_border_border (input : mask) (r c : nat) :
  r < nrows input -> c < ncols input -> on_border input r c = true ->
  item (Skimage.label (Skimage.clear_border input) 2) r c = 0.
Proof.
  intros Hr Hc Hb.
  destruct (Nat.eq_dec (item (Skimage.label (Skimage.clear_border input) 2) r c) 0)
    as [H0 | Hne]; [exact H0|].
  apply label_foreground in Hne. destruct Hne as (_ & _ & Hfg).
  rewrite (clear_border_border input Hr Hc Hb) in Hfg. discriminate.
Qed.

(* ----------------------------------------------------------------- *)
(** ** Nuclei segmenter *)

Lemma fold_right_max_le (v : list nat) (x : nat) :
  In x v -> x <= fold_right Nat.max 0 v.
Proof.
  induction v as [|y v IH]; simpl; [tauto|].
  intros [-> | H]; [lia | specialize (IH H); lia].
Qed.

Lemma reported_labels_In label_image l :
  In l (reported_labels label_image) <-> 0 < l /\ In l (ravel label_image).
Proof.
  unfold reported_labels. rewrite filter_In, in_seq, existsb_exists. split.
  - intros [Hrange (x & Hin & Heq)]. apply Nat.eqb_eq in Heq. subst x.
    split; [lia | exact Hin].
  - intros [Hpos Hin]. split.
    + pose proof (fold_right_max_le _ _ Hin). lia.
    + exists l. split; [exact Hin | apply Nat.eqb_refl].
Qed.

Lemma reported_labels_NoDup label_image : NoDup (reported_labels label_image).
Proof. apply NoDup_filter, seq_NoDup. Qed.

Lemma distinct_positive_labels_In label_image l :
  In l (distinct_positive_labels label_image) <-> 0 < l /\ In l (ravel label_image).
Proof.
  unfold distinct_positive_labels. rewrite nodup_In, filter_In, Nat.ltb_lt. tauto.
Qed.

Lemma reported_labels_count label_image :
  length (reported_labels label_image)
  = length (distinct_positive_labels label_image).
Proof.
  apply Permutation_length, NoDup_Permutation.
  - apply reported_labels_NoDup.
  - apply NoDup_nodup.
  - intros l. now rewrite reported_labels_In, distinct_positive_labels_In.
Qed.

Lemma reported_labels_background label_image :
  Forall (fun l => l = 0) (ravel label_image) -> reported_labels label_image = [].
Proof.
  intros Hall. destruct (reported_labels label_image) as [|l ls] eqn:E; [reflexivity|].
  assert (Hin : In l (reported_labels label_image)) by (rewrite E; now left).
  apply reported_labels_In in Hin. destruct Hin as [Hpos Hin].
  rewrite Forall_forall in Hall. specialize (Hall _ Hin). lia.
Qed.

Section SegmenterProperties.

Variable threshold_otsu : image -> result Z.
Variable remove_small_holes : mask -> mask.
Variable remove_small_objects : mask -> mask.
Variable measure_region : nat -> label_image -> image -> region_measurements.

Lemma regionprops_labels label_image intensity_image :
  map label (regionprops measure_region label_image intensity_image)
  = reported_labels label_image.
Proof.
  unfold regionprops, reported_labels, Skimage.find_objects, enumerate.
  rewrite length_map, length_seq.
  generalize (fold_right Nat.max 0 (ravel label_image)) as n.
  enough (H : forall n s,
             map label
                 (flat_map
                    (fun isl : nat * bool =>
                       let '(i, sl) := isl in
                       if sl then
                         [mk_RegionProperties
                            (i + 1) (measure_region (i + 1) label_image intensity_image)]
                       else [])
                    (combine (seq s n)
                             (map (fun l => existsb (Nat.eqb l) (ravel label_image))
                                  (seq (S s) n))))
             = filter (fun l => existsb (Nat.eqb l) (ravel label_image)) (seq (S s) n))
    by (intros n; apply (H n 0)).
  induction n as [|n IH]; intros s; [reflexivity|].
  cbn [seq map combine flat_map filter].
  destruct (existsb (Nat.eqb (S s)) (ravel label_image)).
  - cbn [app map label]. rewrite IH, Nat.add_1_r. reflexivity.
  - cbn [app]. apply IH.
Qed.

Lemma nuclei_segmentation_result image radius thresh_val :
  threshold_otsu image = Return thresh_val ->
  nuclei_segmentation threshold_otsu remove_small_holes remove_small_objects
                      measure_region image radius
  = Return (segmented remove_small_holes remove_small_objects measure_region
                      image thresh_val).
Proof.
  intros Hotsu. unfold segmented, region_table.
  set (label_image := Skimage.label (cleaned_mask remove_small_holes remove_small_objects image thresh_val) 2).
  set (regions := regionprops measure_region label_image image).
  unfold nuclei_segmentation. rewrite Hotsu. cbn [bind].
  fold (cleaned_mask remove_small_holes remove_small_objects image thresh_val). fold label_image. fold regions.
  assert (Hfold : forall ps acc_p acc_i,
             fold_left
               (fun (st : list (list Q) * list nat) (p : RegionProperties) =>
                  let '(properties, indices) := st in
                  let m := measurements p in
                  (properties ++
                     [[area m; bbox_area m; fst (centroid m); snd (centroid m);
                       eccentricity m; equivalent_diameter m; euler_number m; extent m;
                       max_intensity m; mean_intensity m; min_intensity m;
                       orientation m; perimeter m]],
                   indices ++ [label p]))
               ps (acc_p, acc_i)
             = (acc_p ++ map region_row ps, acc_i ++ map label ps)).
  { induction ps as [|p ps IH]; intros acc_p acc_i; simpl.
    - now rewrite !app_nil_r.
    - rewrite IH, <- !app_assoc. reflexivity. }
  rewrite Hfold. simpl. destruct regions; reflexivity.
Qed.

End SegmenterProperties.

Lemma nuclei_segmentation_inv threshold_otsu remove_small_holes remove_small_objects
      measure_region image radius label_image properties :
  nuclei_segmentation threshold_otsu remove_small_holes remove_small_objects
                      measure_region image radius
  = Return (label_image, properties) ->
  exists thresh_val,
    threshold_otsu image = Return thresh_val /\
    label_image
    = Skimage.label
        (cleaned_mask remove_small_holes remove_small_objects image thresh_val) 2 /\
    df_index properties = reported_labels label_image /\
    length (df_rows properties) = length (df_index properties) /\
    (reported_labels label_image = [] -> properties = empty_frame).
Proof.
  intros H. destruct (threshold_otsu image) as [thresh_val|e] eqn:Hotsu.
  - rewrite (nuclei_segmentation_result _ remove_small_holes remove_small_objects
               measure_region image radius Hotsu) in H.
    unfold segmented, region_table in H. inversion H as [[HL HT]]; clear H.
    exists thresh_val. split; [reflexivity|]. split; [reflexivity|].
    pose proof (regionprops_labels measure_region
                  (Skimage.label (cleaned_mask remove_small_holes remove_small_objects
                                               image thresh_val) 2) image) as Hlab.
    destruct (regionprops measure_region _ image) as [|p ps]; simpl in *.
    + rewrite <- Hlab. auto.
    + rewrite <- Hlab, !length_map. repeat split; auto. discriminate.
  - unfold nuclei_segmentation in H. rewrite Hotsu in H. discriminate.
Qed.

(** C4.  In every label image [nuclei_segmentation] returns, each pixel
    of row 0, of the last row, of column 0 and of the last column is
    background (label 0): no positive label has a pixel there. *)
Theorem nuclei_segmentation_border_is_background :
  forall threshold_otsu remove_small_holes remove_small_objects measure_region
         image radius label_image properties,
    nuclei_segmentation threshold_otsu remove_small_holes remove_small_objects
                        measure_region image radius
    = Return (label_image, properties) ->
    forall r c,
      r < nrows label_image -> c < ncols label_image ->
      r = 0 \/ r = nrows label_image - 1 \/ c = 0 \/ c = ncols label_image - 1 ->
      item label_image r c = 0.
Proof.
  intros threshold_otsu remove_small_holes remove_small_objects measure_region
         image radius label_image properties H r c Hr Hc Hb.
  apply nuclei_segmentation_inv in H. destruct H as (t & _ & -> & _).
  unfold cleaned_mask in *.
  set (thresh := remove_small_objects _) in *.
  assert (Hshape : shape (Skimage.label (Skimage.clear_border thresh) 2) = shape thresh)
    by now rewrite label_shape, clear_border_shape.
  unfold shape in Hshape. inversion Hshape as [[Hrows Hcols]].
  rewrite Hrows in Hr, Hb. rewrite Hcols in Hc, Hb.
  apply label_clear_border_border; auto.
  now apply on_border_spec.
Qed.

Lemma example_image_threshold : Skimage.threshold_otsu example_image = Return 12%Z.
Proof. vm_compute. reflexivity. Qed.

(** With the default clean-up routines the label image has the shape of
    the input image. *)
Lemma segmented_shape_default measure_region image thresh_val :
  shape (fst (segmented remove_small_holes_default remove_small_objects_default
                        measure_region image thresh_val))
  = shape image.
Proof. cbn [segmented fst]. now rewrite label_shape. Qed.

(** The example image: the bright square survives as label 1. *)
Example example_image_segmentation :
  nuclei_segmentation Skimage.threshold_otsu remove_small_holes_default
                      remove_small_objects_default measure_exact
                      example_image default_radius
  = Return (segmented remove_small_holes_default remove_small_objects_default
                      measure_exact example_image 12)
  /\
  distinct_positive_labels
    (fst (segmented remove_small_holes_default remove_small_objects_default
                    measure_exact example_image 12)) = [1]
  /\
  df_index (snd (segmented remove_small_holes_default remove_small_objects_default
                           measure_exact example_image 12)) = [1].
Proof.
  split; [apply nuclei_segmentation_result, example_image_threshold|].
  split; vm_compute; reflexivity.
Qed.

(** The statement above at the example image, for a pixel of row 0. *)
Lemma nuclei_segmentation_border_is_background_witness :
  item (fst (segmented remove_small_holes_default remove_small_objects_default
                       measure_exact example_image 12)) 0 5 = 0.
Proof.
  refine (nuclei_segmentation_border_is_background
            Skimage.threshold_otsu remove_small_holes_default
            remove_small_objects_default measure_exact example_image default_radius
            (label_image := fst (segmented _ _ _ _ _))
            (properties := snd (segmented _ _ _ _ _))
            (nuclei_segmentation_result
               Skimage.threshold_otsu remove_small_holes_default
               remove_small_objects_default measure_exact example_image default_radius
               example_image_threshold) (r := 0) (c := 5) _ _ (or_introl eq_refl)).
  - cbn [segmented fst]. rewrite label_nrows. cbn. lia.
  - cbn [segmented fst]. rewrite label_ncols. cbn. lia.
Defined.

Lemma threshold_otsu_empty (image : image) :
  nrows image * ncols image = 0 -> Skimage.threshold_otsu image = Raise IndexError.
Proof.
  intros H. unfold Skimage.threshold_otsu. now rewrite (ravel_empty image H).
Qed.

(** An image of a single grey level is segmented without an error: the
    level is its threshold, and the call returns; here no region is
    left and the table is empty. *)
Example constant_image_segmentation :
  Skimage.threshold_otsu (mk_ndarray 4 4 (fun _ _ => 7%Z)) = Return 7%Z
  /\
  exists label_image,
    nuclei_segmentation Skimage.threshold_otsu remove_small_holes_default
                        remove_small_objects_default measure_exact
                        (mk_ndarray 4 4 (fun _ _ => 7%Z)) default_radius
    = Return (label_image, empty_frame).
Proof.
  split; [vm_compute; reflexivity|].
  eexists. vm_compute. reflexivity.
Qed.

(** C5 (as the claim states it, refuted).  On an image without pixels
    the call fails with the [IndexError] of the Otsu threshold, which
    is not [InvalidInputError]. *)
Lemma empty_image_raises_IndexError :
  nuclei_segmentation Skimage.threshold_otsu remove_small_holes_default
                      remove_small_objects_default measure_exact
                      empty_image default_radius
  = Raise IndexError
  /\
  nuclei_segmentation Skimage.threshold_otsu remove_small_holes_default
                      remove_small_objects_default measure_exact
                      empty_image default_radius
  <> Raise InvalidInputError.
Proof.
  assert (H : nuclei_segmentation Skimage.threshold_otsu remove_small_holes_default
                                  remove_small_objects_default measure_exact
                                  empty_image default_radius
              = Raise IndexError) by (vm_compute; reflexivity).
  split; [exact H | rewrite H; discriminate].
Qed.

(** C5 (amended).  [nuclei_segmentation] fails on every image without
    pixels, whatever the clean-up and measurement routines: its first
    statement takes the Otsu threshold, which reads the first pixel and
    raises [IndexError]; the failure is not an [InvalidInputError]. *)
Theorem nuclei_segmentation_fails_on_empty_image :
  forall remove_small_holes remove_small_objects measure_region image radius,
    nrows image * ncols image = 0 ->
    nuclei_segmentation Skimage.threshold_otsu remove_small_holes
                        remove_small_objects measure_region image radius
    = Raise IndexError.
Proof.
  intros remove_small_holes remove_small_objects measure_region image radius H.
  unfold nuclei_segmentation. now rewrite (threshold_otsu_empty image H).
Qed.

(** The statement above at an array with no rows. *)
Lemma nuclei_segmentation_fails_on_empty_image_witness :
  nuclei_segmentation Skimage.threshold_otsu remove_small_holes_default
                      remove_small_objects_default measure_exact
                      (mk_ndarray 0 5 (fun _ _ => 7%Z)) default_radius
  = Raise IndexError.
Proof.
  apply nuclei_segmentation_fails_on_empty_image. reflexivity.
Defined.

(** C6.  Whenever [nuclei_segmentation] returns, which it does for
    every image the Otsu threshold accepts, the table has one row per
    distinct positive label of the returned label image and is indexed
    by exactly those labels, each once; when the label image is all
    background the table is the empty one. *)
Theorem region_table_matches_labels :
  forall threshold_otsu remove_small_holes remove_small_objects measure_region
         image radius,
    (forall thresh_val,
        threshold_otsu image = Return thresh_val ->
        exists label_image properties,
          nuclei_segmentation threshold_otsu remove_small_holes remove_small_objects
                              measure_region image radius
          = Return (label_image, properties))
    /\
    (forall label_image properties,
        nuclei_segmentation threshold_otsu remove_small_holes remove_small_objects
                            measure_region image radius
        = Return (label_image, properties) ->
        length (df_rows properties) = length (distinct_positive_labels label_image) /\
        length (df_index properties) = length (distinct_positive_labels label_image) /\
        NoDup (df_index properties) /\
        (forall l, In l (df_index properties)
                   <-> In l (distinct_positive_labels label_image)) /\
        (Forall (fun l => l = 0) (ravel label_image) -> properties = empty_frame)).
Proof.
  intros threshold_otsu remove_small_holes remove_small_objects measure_region
         image radius.
  split.
  - intros thresh_val Hotsu. eexists _, _.
    rewrite (nuclei_segmentation_result _ remove_small_holes remove_small_objects
               measure_region image radius Hotsu).
    unfold segmented. reflexivity.
  - intros label_image properties H.
    apply nuclei_segmentation_inv in H.
    destruct H as (t & _ & _ & Hidx & Hlen & Hempty).
    rewrite Hlen, Hidx, reported_labels_count.
    repeat split.
    + apply reported_labels_NoDup.
    + now rewrite reported_labels_In, distinct_positive_labels_In.
    + now rewrite reported_labels_In, distinct_positive_labels_In.
    + intros Hall. now apply Hempty, reported_labels_background.
Qed.

(** The statement above at the example image. *)
Lemma region_table_matches_labels_witness :
  length (df_rows (snd (segmented remove_small_holes_default
                                  remove_small_objects_default
                                  measure_exact example_image 12)))
  = length (distinct_positive_labels
              (fst (segmented remove_small_holes_default remove_small_objects_default
                              measure_exact example_image 12))).
Proof.
  exact (proj1 (proj2 (region_table_matches_labels
                         Skimage.threshold_otsu remove_small_holes_default
                         remove_small_objects_default measure_exact example_image
                         default_radius)
                      (fst (segmented _ _ _ _ _)) (snd (segmented _ _ _ _ _))
                      (nuclei_segmentation_result
                         Skimage.threshold_otsu remove_small_holes_default
                         remove_small_objects_default measure_exact example_image
                         default_radius example_image_threshold))).
Defined.

(* ----------------------------------------------------------------- *)
(** ** Cell boundary segmenter *)

Section CellBoundaryProperties.

Variable findContours : image -> list (list (Z * Z)).

Lemma boundaries_loop_raw labels ls acc out :
  boundaries_loop findContours labels ls acc = Return out ->
  Forall (raw_record findContours labels) acc ->
  Forall (raw_record findContours labels) out /\ map id out = map id acc ++ ls.
Proof.
  revert acc; induction ls as [|l ls IH]; intros acc Hloop Hacc; simpl in Hloop.
  - inversion Hloop; subst. now rewrite app_nil_r.
  - destruct (findContours (label_mask labels l)) as [|contour rest] eqn:Hcnts;
      [discriminate|].
    apply IH in Hloop.
    + destruct Hloop as [Hraw Hids]. split; [exact Hraw|].
      rewrite Hids, map_app, <- app_assoc. reflexivity.
    + apply Forall_app. split; [exact Hacc|].
      constructor; [|constructor]. exists contour, rest. auto.
Qed.

End CellBoundaryProperties.

Lemma raw_point_fixed_by_correction (xy : Z * Z) :
  coord_eq (raw_point xy) (to_frame (raw_point xy)) -> fst xy = snd xy.
Proof.
  destruct xy as [x y]. intros [H _]. simpl in *.
  apply inject_Z_injective. rewrite H. ring.
Qed.

(** C9.  Every record [cell_boundary] returns carries, as its boundary,
    the first external contour OpenCV traced on the mask of the
    record's label, point by point in OpenCV's (x, y) pixel
    coordinates: the correction of [nuclei_features] and [centrosomes]
    is not applied, so the boundary agrees with its corrected version
    only when every point has equal coordinates. *)
Theorem cell_boundary_is_raw :
  forall percentile rescale_intensity erosion getGaborKernel pi filter2D astype
         convertScaleAbs otsu_level GaussianBlur ndi_label watershed findContours
         tubulin hoechst threshold markers boundaries_list gabor_proc,
    cell_boundary percentile rescale_intensity erosion getGaborKernel pi filter2D astype
                  convertScaleAbs otsu_level GaussianBlur ndi_label watershed
                  findContours tubulin hoechst threshold markers
    = Return (boundaries_list, gabor_proc) ->
    Forall
      (fun rec =>
         exists contour rest,
           findContours
             (label_mask
                (fst (watershed_labels percentile rescale_intensity erosion
                                       getGaborKernel pi filter2D astype convertScaleAbs
                                       otsu_level GaussianBlur ndi_label watershed
                                       tubulin hoechst threshold markers))
                (id rec))
           = contour :: rest /\
           boundary rec = map raw_point contour /\
           (poly_eq (boundary rec) (map to_frame (boundary rec)) ->
            Forall (fun xy => fst xy = snd xy) contour))
      boundaries_list.
Proof.
  intros percentile rescale_intensity erosion getGaborKernel pi filter2D astype
         convertScaleAbs otsu_level GaussianBlur ndi_label watershed findContours
         tubulin hoechst threshold markers boundaries_list gabor_proc H.
  unfold cell_boundary in H.
  destruct (watershed_labels _ _ _ _ _ _ _ _ _ _ _ _ _ _ _) as [labels gabor].
  cbn [fst].
  destruct (boundaries_loop findContours labels _ []) as [out|e] eqn:Hloop;
    [|discriminate].
  cbn [bind] in H. inversion H; subst; clear H.
  apply boundaries_loop_raw in Hloop; [|constructor].
  destruct Hloop as [Hraw _].
  eapply Forall_impl; [|exact Hraw].
  intros rec (contour & rest & Hcnts & Hb). exists contour, rest.
  split; [exact Hcnts|]. split; [exact Hb|].
  rewrite Hb. clear. unfold poly_eq. rewrite map_map.
  induction contour as [|xy contour IH]; intros Heq; constructor.
  - inversion Heq; subst. now apply raw_point_fixed_by_correction.
  - inversion Heq; subst. auto.
Qed.

(** The statement above for the stand-in routines and markers with two
    rectangular regions: both records hold the corners of their
    rectangle in (x, y) order. *)
Lemma cell_boundary_is_raw_witness :
  Forall
    (fun rec =>
       exists contour rest,
         StandIn.findContours
           (label_mask
              (fst (watershed_labels
                      StandIn.percentile StandIn.rescale_intensity StandIn.erosion
                      StandIn.getGaborKernel StandIn.pi StandIn.filter2D StandIn.astype
                      StandIn.convertScaleAbs StandIn.otsu_level StandIn.GaussianBlur
                      StandIn.ndi_label StandIn.watershed
                      StandIn.blank StandIn.blank default_threshold
                      (Some StandIn.markers)))
              (id rec))
         = contour :: rest /\
         boundary rec = map raw_point contour /\
         (poly_eq (boundary rec) (map to_frame (boundary rec)) ->
          Forall (fun xy => fst xy = snd xy) contour))
    [mk_boundary_record 1 [(1, 1); (1, 2); (3, 2); (3, 1)]%Q;
     mk_boundary_record 2 [(2, 4); (2, 4); (4, 4); (4, 4)]%Q].
Proof.
  refine (cell_boundary_is_raw
            StandIn.percentile StandIn.rescale_intensity StandIn.erosion
            StandIn.getGaborKernel StandIn.pi StandIn.filter2D StandIn.astype
            StandIn.convertScaleAbs StandIn.otsu_level StandIn.GaussianBlur
            StandIn.ndi_label StandIn.watershed StandIn.findContours
            StandIn.blank StandIn.blank default_threshold (Some StandIn.markers)
            (gabor_proc := StandIn.blank) _).
  vm_compute. reflexivity.
Defined.

(* ================================================================= *)
(** * Part III: further properties of the code *)

(* ----------------------------------------------------------------- *)
(** ** Geometric validator *)

(** X1.  How [get_nuclei_features] reports a rejection.  The chosen
    cell is the first cell that contains the candidate nucleus or, when
    none does, the last cell of the list; the candidate and the cells
    up to the chosen one are polygons that shapely builds.  The call
    returns (false, that cell, nucleus, None) exactly when the frame
    does not contain the chosen cell, or the cell does not contain the
    candidate, or every nucleus of the list is built and those inside
    the cell are not exactly one.  It returns
    (false, None, nucleus, None) exactly when the chosen cell passes
    the containment checks, every nucleus of the list is built and
    exactly one is inside the cell, but the centrosomes inside it
    number zero or more than two.  No other invalid tuple is ever
    returned. *)
Theorem get_nuclei_features_rejections :
  forall contains valid_shell img nuclei cell_list nuclei_list centrosome_list
         ocell nuc oclist,
    get_nuclei_features contains valid_shell img nuclei cell_list nuclei_list
                        centrosome_list
    = Return (false, ocell, nuc, oclist)
    <->
    exists cell,
      valid_shell nuclei = true /\
      chosen_cell contains valid_shell (Polygon nuclei) cell_list cell /\
      nuc = Polygon nuclei /\ oclist = None /\
      ((ocell = Some cell /\
        (contains (image_rectangle img) cell = false \/
         contains cell (Polygon nuclei) = false \/
         (well_formed valid_shell nuclei_list /\
          nuclei_inside contains cell nuclei_list <> 1)))
       \/
       (ocell = None /\
        contains (image_rectangle img) cell = true /\
        contains cell (Polygon nuclei) = true /\
        well_formed valid_shell nuclei_list /\
        nuclei_inside contains cell nuclei_list = 1 /\
        (length (centrosomes_inside contains cell centrosome_list) = 0 \/
         2 < length (centrosomes_inside contains cell centrosome_list)))).
Proof.
  intros contains valid_shell img nuclei cell_list nuclei_list centrosome_list
         ocell nuc oclist.
  rewrite get_nuclei_features_checks. split.
  - destruct (valid_shell nuclei); [|discriminate].
    destruct (cell_loop contains valid_shell (Polygon nuclei) cell_list None)
      as [[cell|]|e] eqn:Hloop; [|discriminate|discriminate].
    intros H. apply checks_with_false_iff in H. destruct H as (Hn & Ho & Hcases).
    exists cell. apply cell_loop_chosen in Hloop.
    exact (conj eq_refl (conj Hloop (conj Hn (conj Ho Hcases)))).
  - intros (cell & -> & Hchosen & Hn & Ho & Hcases).
    apply cell_loop_chosen in Hchosen. rewrite Hchosen.
    apply checks_with_false_iff. exact (conj Hn (conj Ho Hcases)).
Qed.

(** X2.  Without a nucleus list, or without a centrosome list, no call
    is valid: the nucleus count is taken over the list alone (the
    candidate itself is not counted), and an empty centrosome list
    leaves no centrosome inside any cell. *)
Theorem get_nuclei_features_needs_nuclei_and_centrosomes :
  forall contains valid_shell img nuclei cell_list nuclei_list centrosome_list,
    is_valid (get_nuclei_features contains valid_shell img nuclei cell_list []
                                  centrosome_list)
    = false
    /\
    is_valid (get_nuclei_features contains valid_shell img nuclei cell_list
                                  nuclei_list [])
    = false.
Proof.
  intros contains valid_shell img nuclei cell_list nuclei_list centrosome_list.
  rewrite !get_nuclei_features_checks.
  destruct (valid_shell nuclei); [|split; reflexivity].
  destruct (cell_loop contains valid_shell (Polygon nuclei) cell_list None)
    as [[cell|]|e]; [|split; reflexivity|split; reflexivity].
  unfold checks_with. split.
  - destruct (negb _ || negb _); reflexivity.
  - destruct (negb _ || negb _); [reflexivity|].
    destruct (count_nuclei contains valid_shell cell nuclei_list 0) as [n|e];
      cbn [bind]; [|reflexivity].
    destruct (negb _); reflexivity.
Qed.

(** X3.  Only the first containing cell matters.  The cells listed
    before it, which are built and do not contain the candidate
    nucleus, can be dropped; the cells listed after it are never looked
    at, not even built, and can be dropped as well: the call returns,
    or raises, the same. *)
Theorem get_nuclei_features_first_match_only :
  forall contains valid_shell img nuclei before cll after nuclei_list
         centrosome_list,
    Forall (passed_over contains valid_shell (Polygon nuclei)) before ->
    valid_shell (boundary cll) = true ->
    contains (cell_polygon cll) (Polygon nuclei) = true ->
    get_nuclei_features contains valid_shell img nuclei (before ++ cll :: after)
                        nuclei_list centrosome_list
    = get_nuclei_features contains valid_shell img nuclei [cll] nuclei_list
                          centrosome_list.
Proof.
  intros contains valid_shell img nuclei before cll after nuclei_list
         centrosome_list Hb Hv Hc.
  rewrite !get_nuclei_features_checks.
  destruct (valid_shell nuclei); [|reflexivity].
  assert (Hloop : forall l1 l2,
             Forall (passed_over contains valid_shell (Polygon nuclei)) l1 ->
             cell_loop contains valid_shell (Polygon nuclei) (l1 ++ cll :: l2) None
             = Return (Some (cell_polygon cll))).
  { intros l1 l2 Hl1. apply cell_loop_chosen. exists l1, cll, l2.
    exact (conj eq_refl (conj Hl1 (conj Hv (conj eq_refl (or_introl Hc))))). }
  rewrite (Hloop before after Hb).
  change [cll] with ([] ++ cll :: @nil boundary_record).
  rewrite (Hloop [] [] (Forall_nil _)). reflexivity.
Qed.

(** The statement above with a cell in a corner of the frame before the
    cell of the documented example, and a boundary of two points after
    it. *)
Lemma get_nuclei_features_first_match_only_witness :
  get_nuclei_features Convex.contains Convex.valid_shell img_100 nucleus_square
                      ([mk_boundary_record 1 corner_cell]
                         ++ mk_boundary_record 2 cell_square
                         :: [mk_boundary_record 3 [(0, 0); (1, 1)]%Q])
                      [mk_boundary_record 0 nucleus_square] [centrosome_50]
  = get_nuclei_features Convex.contains Convex.valid_shell img_100 nucleus_square
                        [mk_boundary_record 2 cell_square]
                        [mk_boundary_record 0 nucleus_square] [centrosome_50].
Proof.
  apply get_nuclei_features_first_match_only.
  - repeat constructor.
  - reflexivity.
  - vm_compute; reflexivity.
Defined.

(* ----------------------------------------------------------------- *)
(** ** Contour extractor *)

Section ContourFurtherProperties.

Variable find_contours : image -> Q -> list (list coord).

(** Both components of what [nuclei_features] computes. *)
Lemma nuclei_features_both image ax area_thresh :
  nuclei_features find_contours image ax area_thresh
  = (fst (nuclei_features find_contours image None area_thresh),
     option_map
       (fun lines =>
          lines ++ map plotted_line
                       (fst (nuclei_features find_contours image None area_thresh)))
       ax).
Proof.
  rewrite nuclei_features_records. unfold nuclei_features, kept. cbv zeta.
  generalize (enumerate (find_contours image (9 # 10))) as l.
  enough (H : forall (l : list (nat * list coord)) acc ax0,
             fold_left
               (fun (st : list boundary_record * option axes)
                    (kc : nat * list coord) =>
                  let '(_list, ax) := st in
                  let '(k, contr) := kc in
                  if Qlt_bool area_thresh (polygon_area (col0 contr) (col1 contr))
                  then
                    let contr := map (apply_tform tform) contr in
                    let contr := map flip_first contr in
                    (_list ++ [mk_boundary_record (Z.of_nat k) contr],
                     match ax with
                     | Some lines => Some (lines ++ [(col1 contr, col0 contr)])
                     | None => None
                     end)
                  else st) l (acc, ax0)
             = (acc ++ map (fun kc => mk_boundary_record (Z.of_nat (fst kc))
                                                         (map to_frame (snd kc)))
                           (filter (fun kc => Qlt_bool area_thresh
                                                       (contour_area (snd kc))) l),
                option_map
                  (fun lines =>
                     lines ++ map plotted_line
                                  (map (fun kc => mk_boundary_record
                                                    (Z.of_nat (fst kc))
                                                    (map to_frame (snd kc)))
                                       (filter (fun kc => Qlt_bool area_thresh
                                                                   (contour_area (snd kc)))
                                               l)))
                  ax0)).
  { intros l. exact (H l [] ax). }
  induction l as [|[k contr] l IH]; intros acc ax0.
  - simpl. rewrite app_nil_r. destruct ax0; simpl; [now rewrite app_nil_r | reflexivity].
  - cbn [fold_left filter snd].
    change (contour_area contr) with (polygon_area (col0 contr) (col1 contr)).
    destruct (Qlt_bool area_thresh (polygon_area (col0 contr) (col1 contr))).
    + rewrite IH. cbn [map fst snd]. rewrite <- app_assoc, map_map. f_equal.
      destruct ax0; simpl; [|reflexivity].
      rewrite <- app_assoc. reflexivity.
    + apply IH.
Qed.

End ContourFurtherProperties.

(** X4.  The drawing sink of [nuclei_features] never changes what is
    returned: with or without one the records are the same.  Without a
    sink nothing is drawn; with one, the lines already drawn are kept
    and exactly one line per returned record is added, in the order of
    the records, each with the second column of the boundary as its
    first argument and the first column as its second. *)
Theorem nuclei_features_drawing :
  forall find_contours image ax area_thresh,
    fst (nuclei_features find_contours image ax area_thresh)
    = fst (nuclei_features find_contours image None area_thresh)
    /\
    snd (nuclei_features find_contours image ax area_thresh)
    = match ax with
      | None => None
      | Some lines =>
          Some (lines ++
                map (fun rec => (col1 (boundary rec), col0 (boundary rec)))
                    (fst (nuclei_features find_contours image ax area_thresh)))
      end.
Proof.
  intros find_contours image ax area_thresh.
  rewrite (nuclei_features_both find_contours image ax area_thresh).
  split; [reflexivity|]. destruct ax; reflexivity.
Qed.

Lemma Qlt_bool_Qeq (t a a' : Q) : (a == a')%Q -> Qlt_bool t a = Qlt_bool t a'.
Proof.
  intros H. destruct (Qlt_bool t a') eqn:E.
  - apply Qlt_bool_iff. apply Qlt_bool_iff in E. now rewrite H.
  - destruct (Qlt_bool t a) eqn:E'; [|reflexivity].
    apply Qlt_bool_iff in E'. rewrite H in E'. apply Qlt_bool_iff in E'. congruence.
Qed.

Lemma filter_filter_weaker {A} (f g : A -> bool) (l : list A) :
  (forall x, g x = true -> f x = true) ->
  filter g (filter f l) = filter g l.
Proof.
  intros H. induction l as [|x l IH]; simpl; [reflexivity|].
  destruct (f x) eqn:Hf; simpl.
  - now rewrite IH.
  - destruct (g x) eqn:Hg; [|exact IH]. apply H in Hg. congruence.
Qed.

Lemma filter_map_swap {A B} (f : A -> B) (g : B -> bool) (l : list A) :
  filter g (map f l) = map f (filter (fun x => g (f x)) l).
Proof.
  induction l as [|x l IH]; simpl; [reflexivity|].
  destruct (g (f x)); simpl; now rewrite IH.
Qed.

(** X5.  Raising the area threshold only removes records: the records
    returned for a threshold are those returned for any lower
    threshold whose boundary has an area above the higher one, in the
    same order and with the same ids. *)
Theorem nuclei_features_threshold_monotone :
  forall find_contours image ax lower higher,
    (lower <= higher)%Q ->
    fst (nuclei_features find_contours image ax higher)
    = filter (fun rec => Qlt_bool higher (contour_area (boundary rec)))
             (fst (nuclei_features find_contours image ax lower)).
Proof.
  intros find_contours image ax lower higher Hle.
  rewrite !nuclei_features_records. unfold kept.
  rewrite filter_map_swap. cbn [boundary].
  rewrite (filter_ext (fun kc => Qlt_bool higher (contour_area (map to_frame (snd kc))))
                      (fun kc => Qlt_bool higher (contour_area (snd kc))))
    by (intros kc; apply Qlt_bool_Qeq, contour_area_to_frame).
  rewrite filter_filter_weaker; [reflexivity|].
  intros kc H. apply Qlt_bool_iff. apply Qlt_bool_iff in H.
  eapply Qle_lt_trans; eassumption.
Qed.

(** The statement above for the example contours and the thresholds 100
    and 150: only the 20x20 square is left. *)
Lemma nuclei_features_threshold_monotone_witness :
  fst (nuclei_features (fun _ _ => traced_example) img_100 None 150)
  = filter (fun rec => Qlt_bool 150 (contour_area (boundary rec)))
           (fst (nuclei_features (fun _ _ => traced_example) img_100 None
                                 default_area_thresh)).
Proof.
  apply nuclei_features_threshold_monotone. discriminate.
Defined.

Lemma enumerate_ids_sorted {A} (f : nat * A -> bool) (l : list A) (s : nat) :
  StronglySorted lt (map fst (filter f (combine (seq s (length l)) l))) /\
  Forall (fun k => s <= k < s + length l)
         (map fst (filter f (combine (seq s (length l)) l))).
Proof.
  revert s; induction l as [|x l IH]; intros s; simpl.
  - split; constructor.
  - destruct (IH (S s)) as [Hsorted Hrange].
    assert (Hrange' : Forall (fun k => s <= k < s + S (length l))
                             (map fst (filter f (combine (seq (S s) (length l)) l)))).
    { eapply Forall_impl; [|exact Hrange]. simpl. intros k Hk. lia. }
    destruct (f (s, x)); simpl; [|auto].
    split.
    + constructor; [exact Hsorted|].
      eapply Forall_impl; [|exact Hrange]. simpl. intros k Hk. lia.
    + constructor; [lia | exact Hrange'].
Qed.

(** X6.  The ids of the records [nuclei_features] returns are the
    positions of their contours among the traced ones: they increase
    strictly along the list (so no id repeats, and an id is missing
    for each contour that was dropped) and each is below the number of
    traced contours. *)
Theorem nuclei_features_ids_increase :
  forall find_contours image ax area_thresh,
    StronglySorted Z.lt
      (map id (fst (nuclei_features find_contours image ax area_thresh)))
    /\
    Forall (fun rec =>
              (0 <= id rec < Z.of_nat (length (find_contours image (9 # 10))))%Z)
           (fst (nuclei_features find_contours image ax area_thresh)).
Proof.
  intros find_contours image ax area_thresh.
  rewrite nuclei_features_records. unfold kept, enumerate.
  destruct (enumerate_ids_sorted
              (fun kc => Qlt_bool area_thresh (contour_area (snd kc)))
              (find_contours image (9 # 10)) 0) as [Hsorted Hrange].
  revert Hsorted Hrange.
  generalize (filter (fun kc : nat * list coord =>
                        Qlt_bool area_thresh (contour_area (snd kc)))
                     (combine (seq 0 (length (find_contours image (9 # 10))))
                              (find_contours image (9 # 10)))) as l.
  generalize (length (find_contours image (9 # 10))) as n.
  intros n l Hsorted Hrange. rewrite map_map. cbn [id]. split.
  - induction l as [|kc l IH]; simpl in *; [constructor|].
    inversion Hsorted as [|? ? Hs Hall]; subst. inversion Hrange; subst.
    constructor; [auto|].
    rewrite Forall_map in *. eapply Forall_impl; [|exact Hall].
    simpl. intros k Hk. lia.
  - rewrite Forall_map in *. eapply Forall_impl; [|exact Hrange].
    simpl. intros kc Hk. lia.
Qed.

(** A contour of fewer than three points encloses nothing. *)
Lemma contour_area_degenerate (contr : list coord) :
  length contr < 3 -> (contour_area contr == 0)%Q.
Proof.
  destruct contr as [|[x0 y0] [|[x1 y1] [|p contr]]]; simpl; intros H; try lia;
    unfold contour_area, polygon_area, col0, col1, dot, roll1;
    cbn [map fst snd last removelast combine fold_right];
    match goal with
    | |- (_ * Qabs ?e == 0)%Q => assert (E : (e == 0)%Q) by ring; rewrite E
    end; reflexivity.
Qed.

(** X7.  For a threshold that is not negative, a traced contour of
    fewer than three points is never returned: its shoelace area is 0.
    Every returned boundary therefore has at least three vertices. *)
Theorem nuclei_features_drops_degenerate_contours :
  forall find_contours image ax area_thresh,
    (0 <= area_thresh)%Q ->
    Forall (fun rec => 3 <= length (boundary rec))
           (fst (nuclei_features find_contours image ax area_thresh)).
Proof.
  intros find_contours image ax area_thresh Hthr.
  rewrite nuclei_features_records. unfold kept.
  apply Forall_forall. intros rec Hin. apply in_map_iff in Hin.
  destruct Hin as ([k contr] & <- & Hin). apply filter_In in Hin.
  destruct Hin as [_ Hlt]. cbn [snd fst boundary] in *. rewrite length_map.
  apply Qlt_bool_iff in Hlt.
  destruct (le_lt_dec 3 (length contr)) as [Hle | Hshort]; [exact Hle|].
  rewrite (contour_area_degenerate contr Hshort) in Hlt.
  exfalso. apply (Qlt_not_le _ _ Hlt Hthr).
Qed.

(** The statement above for the example contours, one of which has two
    points, and the default threshold. *)
Lemma nuclei_features_drops_degenerate_contours_witness :
  Forall (fun rec => 3 <= length (boundary rec))
         (fst (nuclei_features (fun _ _ => traced_example) img_100 None
                               default_area_thresh)).
Proof.
  apply nuclei_features_drops_degenerate_contours. discriminate.
Defined.

(* ----------------------------------------------------------------- *)
(** ** Nuclei segmenter *)

(** X9.  The table [nuclei_segmentation] returns is either the empty
    frame, which has no index name, no columns and no rows, or a frame
    whose index is named "label" and is not empty, with the thirteen
    columns of the source and thirteen entries in every row, one row
    per index entry.  A caller must therefore not read a column of the
    table before checking that it is not empty. *)
Theorem nuclei_segmentation_table_shape :
  forall threshold_otsu remove_small_holes remove_small_objects measure_region
         image radius label_image properties,
    nuclei_segmentation threshold_otsu remove_small_holes remove_small_objects
                        measure_region image radius
    = Return (label_image, properties) ->
    (properties = empty_frame /\ Forall (fun l => l = 0) (ravel label_image))
    \/
    (index_name properties = Some "label"%string /\
     df_columns properties = columns /\
     length (df_columns properties) = 13 /\
     df_index properties <> [] /\
     length (df_rows properties) = length (df_index properties) /\
     Forall (fun row => length row = 13) (df_rows properties)).
Proof.
  intros threshold_otsu remove_small_holes remove_small_objects measure_region
         image radius label_image properties H.
  destruct (threshold_otsu image) as [thresh_val|e] eqn:Hotsu.
  2:{ unfold nuclei_segmentation in H. rewrite Hotsu in H. discriminate. }
  rewrite (nuclei_segmentation_result _ remove_small_holes remove_small_objects
             measure_region image radius Hotsu) in H.
  unfold segmented in H. inversion H as [[HL HT]]; clear H.
  set (L := Skimage.label _ 2) in *.
  pose proof (regionprops_labels measure_region L image) as Hlab.
  destruct (regionprops measure_region L image) as [|p ps] eqn:Hregions.
  - left. split; [reflexivity|].
    apply Forall_forall. intros l Hin.
    destruct l as [|l]; [reflexivity|]. exfalso.
    assert (Hrep : In (S l) (reported_labels L))
      by (apply reported_labels_In; split; [lia | exact Hin]).
    rewrite <- Hlab in Hrep. destruct Hrep.
  - right. cbn [region_table index_name df_columns df_index df_rows].
    repeat split; try reflexivity.
    + discriminate.
    + now rewrite !length_map.
    + apply Forall_forall. intros row Hin. apply in_map_iff in Hin.
      destruct Hin as (q & <- & _). reflexivity.
Qed.

(** The statement above at the example image. *)
Lemma nuclei_segmentation_table_shape_witness :
  (snd (segmented remove_small_holes_default remove_small_objects_default
                  measure_exact example_image 12) = empty_frame /\
   Forall (fun l => l = 0)
          (ravel (fst (segmented remove_small_holes_default
                                 remove_small_objects_default
                                 measure_exact example_image 12))))
  \/
  (index_name (snd (segmented remove_small_holes_default remove_small_objects_default
                              measure_exact example_image 12))
   = Some "label"%string /\
   df_columns (snd (segmented remove_small_holes_default remove_small_objects_default
                              measure_exact example_image 12)) = columns /\
   length (df_columns (snd (segmented remove_small_holes_default
                                      remove_small_objects_default
                                      measure_exact example_image 12))) = 13 /\
   df_index (snd (segmented remove_small_holes_default remove_small_objects_default
                            measure_exact example_image 12)) <> [] /\
   length (df_rows (snd (segmented remove_small_holes_default
                                   remove_small_objects_default
                                   measure_exact example_image 12)))
   = length (df_index (snd (segmented remove_small_holes_default
                                      remove_small_objects_default
                                      measure_exact example_image 12))) /\
   Forall (fun row => length row = 13)
          (df_rows (snd (segmented remove_small_holes_default
                                   remove_small_objects_default
                                   measure_exact example_image 12)))).
Proof.
  exact (nuclei_segmentation_table_shape
           Skimage.threshold_otsu remove_small_holes_default
           remove_small_objects_default measure_exact example_image default_radius
           (label_image := fst (segmented _ _ _ _ _))
           (properties := snd (segmented _ _ _ _ _))
           (nuclei_segmentation_result
              Skimage.threshold_otsu remove_small_holes_default
              remove_small_objects_default measure_exact example_image default_radius
              example_image_threshold)).
Defined.

(** *** The labels are consecutive *)

Lemma flood_unchanged fuel connectivity input l work labels r c :
  item labels r c <> 0 ->
  item (Skimage.flood fuel connectivity input l work labels) r c = item labels r c.
Proof.
  revert work labels; induction fuel as [|fuel IH]; intros work labels H;
    [reflexivity|].
  destruct work as [|[r0 c0] work]; [reflexivity|].
  cbn [Skimage.flood].
  destruct ((r0 <? nrows input) && (c0 <? ncols input) && item input r0 c0
            && (item labels r0 c0 =? 0)) eqn:Hcond; [|now apply IH].
  apply andb_prop in Hcond. destruct Hcond as [_ H0]. apply Nat.eqb_eq in H0.
  assert (Hne : (r =? r0) && (c =? c0) = false).
  { destruct ((r =? r0) && (c =? c0)) eqn:E; [|reflexivity].
    apply andb_prop in E. destruct E as [Er Ec].
    apply Nat.eqb_eq in Er, Ec. subst. contradiction. }
  rewrite IH; simpl; rewrite Hne; auto.
Qed.

Lemma flood_values fuel connectivity input l work labels r c :
  item (Skimage.flood fuel connectivity input l work labels) r c = item labels r c
  \/ item (Skimage.flood fuel connectivity input l work labels) r c = l.
Proof.
  revert work labels; induction fuel as [|fuel IH]; intros work labels; [now left|].
  destruct work as [|[r0 c0] work]; [now left|].
  cbn [Skimage.flood]. destruct (_ && _); [|apply IH].
  destruct (IH (Skimage.neighbours connectivity r0 c0 ++ work) (aset labels r0 c0 l))
    as [H | H]; [|now right].
  rewrite H. simpl. destruct ((r =? r0) && (c =? c0)); auto.
Qed.

Lemma flood_seed_label fuel connectivity input l r c labels :
  l <> 0 -> r < nrows input -> c < ncols input ->
  item input r c = true -> item labels r c = 0 ->
  item (Skimage.flood (S fuel) connectivity input l [(r, c)] labels) r c = l.
Proof.
  intros Hl Hr Hc Hfg H0. cbn [Skimage.flood].
  apply Nat.ltb_lt in Hr, Hc. rewrite Hr, Hc, Hfg, H0. cbn [andb Nat.eqb].
  rewrite flood_unchanged; simpl; rewrite !Nat.eqb_refl; auto.
Qed.

Lemma label_scan_up_to connectivity input pixels next labels :
  0 < next ->
  Forall (fun rc => fst rc < nrows input /\ snd rc < ncols input) pixels ->
  labels_up_to input next labels ->
  exists bound,
    0 < bound /\
    labels_up_to input bound
                 (Skimage.label_scan connectivity input pixels next labels).
Proof.
  revert next labels; induction pixels as [|[r c] pixels IH];
    intros next labels Hnext Hpix Hinv; cbn [Skimage.label_scan].
  - exists next. auto.
  - inversion Hpix as [|? ? [Hr Hc] Hpix']; subst. cbn [fst snd] in Hr, Hc.
    destruct (item input r c && (item labels r c =? 0)) eqn:Hcond;
      [|now apply IH].
    apply andb_prop in Hcond. destruct Hcond as [Hfg H0]. apply Nat.eqb_eq in H0.
    apply IH; [lia | exact Hpix' |].
    destruct Hinv as [Hbelow Hpresent]. split.
    + intros r' c'.
      destruct (flood_values (Skimage.flood_fuel input) connectivity input next
                             [(r, c)] labels r' c') as [-> | ->];
        [specialize (Hbelow r' c') |]; lia.
    + intros l Hl. destruct (Nat.eq_dec l next) as [-> | Hne].
      * exists r, c. repeat split; auto.
        apply flood_seed_label; auto. lia.
      * destruct (Hpresent l) as (r' & c' & Hr' & Hc' & Hl'); [lia|].
        exists r', c'. repeat split; auto.
        rewrite flood_unchanged; [exact Hl' | lia].
Qed.

Lemma label_up_to input connectivity :
  exists bound,
    0 < bound /\ labels_up_to input bound (Skimage.label input connectivity).
Proof.
  unfold Skimage.label. apply label_scan_up_to; [lia | |].
  - apply Forall_forall. intros [r c] Hin. now apply indices_In in Hin.
  - split; [intros; simpl; lia | intros; lia].
Qed.

Lemma fold_right_max_bound (v : list nat) (b : nat) :
  Forall (fun x => x <= b) v -> fold_right Nat.max 0 v <= b.
Proof.
  induction 1 as [|x v Hx Hv IH]; simpl; lia.
Qed.

Lemma filter_all {A} (f : A -> bool) (l : list A) :
  (forall x, In x l -> f x = true) -> filter f l = l.
Proof.
  induction l as [|x l IH]; intros H; simpl; [reflexivity|].
  rewrite (H x (or_introl eq_refl)), IH; auto.
  intros y Hy. apply H. now right.
Qed.

Lemma reported_labels_label input connectivity :
  exists n,
    reported_labels (Skimage.label input connectivity) = seq 1 n /\
    forall r c, item (Skimage.label input connectivity) r c <= n.
Proof.
  destruct (label_up_to input connectivity) as (bound & Hlast & Hbelow & Hpresent).
  set (L := Skimage.label input connectivity) in *.
  exists (bound - 1). split; [|intros r c; specialize (Hbelow r c); lia].
  assert (Hin : forall l, 0 < l < bound -> In l (ravel L)).
  { intros l Hl. destruct (Hpresent l Hl) as (r & c & Hr & Hc & Hitem).
    apply ravel_In. exists r, c. unfold L.
    rewrite label_nrows, label_ncols. auto. }
  assert (Hmax : fold_right Nat.max 0 (ravel L) = bound - 1).
  { apply Nat.le_antisymm.
    - apply fold_right_max_bound, Forall_forall. intros x Hx.
      apply ravel_In in Hx. destruct Hx as (r & c & _ & _ & <-).
      specialize (Hbelow r c). lia.
    - destruct (Nat.eq_dec bound 1) as [-> | Hne]; [simpl; lia|].
      apply fold_right_max_le, Hin. lia. }
  unfold reported_labels. rewrite Hmax. apply filter_all.
  intros l Hl. apply in_seq in Hl. apply existsb_exists.
  exists l. split; [apply Hin; lia | apply Nat.eqb_refl].
Qed.

(** X10.  The labels of the label image [nuclei_segmentation] returns
    are consecutive: with n the number of rows of the table, every
    pixel carries a label between 0 and n, and the table is indexed by
    1, 2, ..., n in this order. *)
Theorem nuclei_segmentation_labels_consecutive :
  forall threshold_otsu remove_small_holes remove_small_objects measure_region
         image radius label_image properties,
    nuclei_segmentation threshold_otsu remove_small_holes remove_small_objects
                        measure_region image radius
    = Return (label_image, properties) ->
    df_index properties = seq 1 (length (df_rows properties)) /\
    (forall r c, item label_image r c <= length (df_rows properties)).
Proof.
  intros threshold_otsu remove_small_holes remove_small_objects measure_region
         image radius label_image properties H.
  apply nuclei_segmentation_inv in H.
  destruct H as (t & _ & -> & Hidx & Hlen & _).
  destruct (reported_labels_label
              (cleaned_mask remove_small_holes remove_small_objects image t) 2)
    as (n & Hrep & Hbound).
  rewrite Hlen, Hidx, Hrep, length_seq. split; [reflexivity | exact Hbound].
Qed.

(** The statement above at the example image. *)
Lemma nuclei_segmentation_labels_consecutive_witness :
  df_index (snd (segmented remove_small_holes_default remove_small_objects_default
                           measure_exact example_image 12))
  = seq 1 (length (df_rows (snd (segmented remove_small_holes_default
                                           remove_small_objects_default
                                           measure_exact example_image 12)))).
Proof.
  exact (proj1 (nuclei_segmentation_labels_consecutive
                  Skimage.threshold_otsu remove_small_holes_default
                  remove_small_objects_default measure_exact example_image
                  default_radius
                  (label_image := fst (segmented remove_small_holes_default
                                          remove_small_objects_default measure_exact
                                          example_image 12))
                  (properties := snd (segmented remove_small_holes_default
                                          remove_small_objects_default measure_exact
                                          example_image 12))
                  (nuclei_segmentation_result
                     Skimage.threshold_otsu remove_small_holes_default
                     remove_small_objects_default measure_exact example_image
                     default_radius example_image_threshold))).
Defined.

(** X11.  With the default clean-up routines of the library the label
    image has the shape of the input image, and a pixel is labelled
    only if it belongs to the mask that the clean-up and the border
    clearing leave. *)
Theorem nuclei_segmentation_keeps_shape :
  forall threshold_otsu measure_region image radius label_image properties,
    nuclei_segmentation threshold_otsu remove_small_holes_default
                        remove_small_objects_default measure_region image radius
    = Return (label_image, properties) ->
    shape label_image = shape image /\
    exists thresh_val,
      threshold_otsu image = Return thresh_val /\
      forall r c,
        r < nrows image -> c < ncols image ->
        (item label_image r c <> 0
         <-> item (cleaned_mask remove_small_holes_default remove_small_objects_default
                                image thresh_val) r c = true).
Proof.
  intros threshold_otsu measure_region image radius label_image properties H.
  apply nuclei_segmentation_inv in H.
  destruct H as (t & Hotsu & -> & _).
  split; [now rewrite label_shape|].
  exists t. split; [exact Hotsu|].
  intros r c Hr Hc. now apply label_positive_iff.
Qed.

(** The statement above at the example image. *)
Lemma nuclei_segmentation_keeps_shape_witness :
  shape (fst (segmented remove_small_holes_default remove_small_objects_default
                        measure_exact example_image 12))
  = shape example_image.
Proof.
  exact (proj1 (nuclei_segmentation_keeps_shape
                  Skimage.threshold_otsu measure_exact example_image default_radius
                  (label_image := fst (segmented remove_small_holes_default
                                          remove_small_objects_default measure_exact
                                          example_image 12))
                  (properties := snd (segmented remove_small_holes_default
                                          remove_small_objects_default measure_exact
                                          example_image 12))
                  (nuclei_segmentation_result
                     Skimage.threshold_otsu remove_small_holes_default
                     remove_small_objects_default measure_exact example_image
                     default_radius example_image_threshold))).
Defined.

(* ----------------------------------------------------------------- *)
(** ** Cell boundary segmenter *)

Lemma insert_unique_In (x y : Z) (l : list Z) :
  In y (insert_unique x l) <-> y = x \/ In y l.
Proof.
  induction l as [|z l IH]; simpl; [intuition|].
  destruct (Z.ltb_spec x z); [simpl; intuition|].
  destruct (Z.eqb_spec x z); simpl; [subst; intuition | rewrite IH; intuition].
Qed.

Lemma unique_In (y : Z) (v : list Z) : In y (unique v) <-> In y v.
Proof.
  unfold unique. induction v as [|x v IH]; simpl; [tauto|].
  rewrite insert_unique_In, IH. intuition.
Qed.

Lemma insert_unique_sorted (x : Z) (l : list Z) :
  StronglySorted Z.lt l -> StronglySorted Z.lt (insert_unique x l).
Proof.
  induction 1 as [|z l Hs IH Hall]; simpl; [repeat constructor|].
  destruct (Z.ltb_spec x z).
  - constructor; [now constructor|].
    constructor; [assumption|].
    eapply Forall_impl; [|exact Hall]. simpl. intros; lia.
  - destruct (Z.eqb_spec x z); [now constructor|].
    constructor; [exact IH|].
    apply Forall_forall. intros y Hy. apply insert_unique_In in Hy.
    destruct Hy as [-> | Hy]; [lia|].
    rewrite Forall_forall in Hall. auto.
Qed.

Lemma unique_sorted (v : list Z) : StronglySorted Z.lt (unique v).
Proof.
  unfold unique. induction v as [|x v IH]; simpl; [constructor|].
  now apply insert_unique_sorted.
Qed.

Lemma StronglySorted_filter {A} (R : A -> A -> Prop) (f : A -> bool) (l : list A) :
  StronglySorted R l -> StronglySorted R (filter f l).
Proof.
  induction 1 as [|x l Hs IH Hall]; simpl; [constructor|].
  destruct (f x); [|exact IH].
  constructor; [exact IH|].
  apply Forall_forall. intros y Hy. apply filter_In in Hy.
  rewrite Forall_forall in Hall. apply Hall, Hy.
Qed.

(** X12.  [cell_boundary] returns one record per positive label of the
    watershed: the ids of the returned records are exactly the positive
    values that occur in the label array, each once, in strictly
    increasing order. *)
Theorem cell_boundary_ids :
  forall percentile rescale_intensity erosion getGaborKernel pi filter2D astype
         convertScaleAbs otsu_level GaussianBlur ndi_label watershed findContours
         tubulin hoechst threshold markers boundaries_list gabor_proc,
    cell_boundary percentile rescale_intensity erosion getGaborKernel pi filter2D astype
                  convertScaleAbs otsu_level GaussianBlur ndi_label watershed
                  findContours tubulin hoechst threshold markers
    = Return (boundaries_list, gabor_proc) ->
    StronglySorted Z.lt (map id boundaries_list) /\
    forall l,
      In l (map id boundaries_list)
      <-> (0 < l)%Z /\
          In l (ravel (fst (watershed_labels
                              percentile rescale_intensity erosion getGaborKernel pi
                              filter2D astype convertScaleAbs otsu_level GaussianBlur
                              ndi_label watershed tubulin hoechst threshold markers))).
Proof.
  intros percentile rescale_intensity erosion getGaborKernel pi filter2D astype
         convertScaleAbs otsu_level GaussianBlur ndi_label watershed findContours
         tubulin hoechst threshold markers boundaries_list gabor_proc H.
  unfold cell_boundary in H.
  destruct (watershed_labels _ _ _ _ _ _ _ _ _ _ _ _ _ _ _) as [labels gabor].
  cbn [fst].
  destruct (boundaries_loop findContours labels _ []) as [out|e] eqn:Hloop;
    [|discriminate].
  cbn [bind] in H. inversion H; subst; clear H.
  apply boundaries_loop_raw in Hloop; [|constructor].
  destruct Hloop as [_ Hids]. cbn [map app] in Hids. rewrite Hids. split.
  - apply StronglySorted_filter, unique_sorted.
  - intros l. rewrite filter_In, unique_In, Z.ltb_lt. tauto.
Qed.

(** The statement above for the stand-in routines and the markers with
    two regions. *)
Lemma cell_boundary_ids_witness :
  StronglySorted Z.lt
    (map id [mk_boundary_record 1 [(1, 1); (1, 2); (3, 2); (3, 1)]%Q;
             mk_boundary_record 2 [(2, 4); (2, 4); (4, 4); (4, 4)]%Q]).
Proof.
  refine (proj1 (cell_boundary_ids
                   StandIn.percentile StandIn.rescale_intensity StandIn.erosion
                   StandIn.getGaborKernel StandIn.pi StandIn.filter2D StandIn.astype
                   StandIn.convertScaleAbs StandIn.otsu_level StandIn.GaussianBlur
                   StandIn.ndi_label StandIn.watershed StandIn.findContours
                   StandIn.blank StandIn.blank default_threshold
                   (Some StandIn.markers) (gabor_proc := StandIn.blank) _)).
  vm_compute. reflexivity.
Defined.

Lemma fold_left_append_map {A B} (f : A -> B) (l : list A) (acc : list B) :
  fold_left (fun acc x => acc ++ [f x]) l acc = acc ++ map f l.
Proof.
  revert acc; induction l as [|x l IH]; intros acc; simpl.
  - now rewrite app_nil_r.
  - rewrite IH, <- app_assoc. reflexivity.
Qed.

Lemma asum_adiv (a : ndarray Q) (s : Q) : (asum (adiv a s) == asum a / s)%Q.
Proof.
  unfold asum, adiv, ravel, indices. cbn [nrows ncols item amap].
  induction (list_prod (seq 0 (nrows a)) (seq 0 (ncols a))) as [|rc l IH]; simpl.
  - unfold Qdiv. ring.
  - rewrite IH. unfold Qdiv. ring.
Qed.

(** X14.  The Gabor bank has eight kernels, of the shape OpenCV gave
    them, and each is normalised: whenever the entries of the raw
    kernels do not sum to 0, the entries of every kernel of the bank
    sum to 1. *)
Theorem gabor_filters_unit_sum :
  forall (getGaborKernel : nat * nat -> Q -> Q -> Q -> Q -> Q -> ndarray Q) (pi : Q),
    (forall theta, ~ (asum (getGaborKernel (9, 9)%nat 4 theta 6 (1 # 2) 0) == 0)%Q) ->
    length (build_gabor_filters getGaborKernel pi) = 8 /\
    Forall (fun kern =>
              (asum kern == 1)%Q /\
              exists theta,
                shape kern = shape (getGaborKernel (9, 9)%nat 4 theta 6 (1 # 2) 0)%Q)
           (build_gabor_filters getGaborKernel pi).
Proof.
  intros getGaborKernel pi Hsum. unfold build_gabor_filters.
  rewrite (fold_left_append_map
             (fun theta =>
                adiv (getGaborKernel (9, 9)%nat 4 theta 6 (1 # 2) 0)%Q
                     (asum (getGaborKernel (9, 9)%nat 4 theta 6 (1 # 2) 0)%Q))).
  cbn [app]. split; [now rewrite !length_map, length_seq|].
  apply Forall_forall. intros kern Hin. apply in_map_iff in Hin.
  destruct Hin as (theta & <- & _). split.
  - rewrite asum_adiv. field. apply Hsum.
  - exists theta. reflexivity.
Qed.

(** The statement above for a raw kernel of 81 ones. *)
Lemma gabor_filters_unit_sum_witness :
  length (build_gabor_filters StandIn.getGaborKernel StandIn.pi) = 8.
Proof.
  refine (proj1 (gabor_filters_unit_sum StandIn.getGaborKernel StandIn.pi _)).
  intros theta H. vm_compute in H. discriminate H.
Defined.

Lemma fold_left_Zmax_le (v : list Z) (a : Z) :
  (a <= fold_left Z.max v a)%Z /\
  Forall (fun x => (x <= fold_left Z.max v a)%Z) v /\
  (fold_left Z.max v a = a \/ In (fold_left Z.max v a) v).
Proof.
  revert a; induction v as [|x v IH]; intros a; simpl.
  - repeat split; [lia | constructor | now left].
  - destruct (IH (Z.max a x)) as (Hle & Hall & Hin). repeat split.
    + lia.
    + constructor; [lia | exact Hall].
    + destruct Hin as [Heq | Hin]; [|auto].
      rewrite Heq. destruct (Z.max_spec a x) as [[_ ->] | [_ ->]]; auto.
Qed.

(** When the array of the image holds every 16-bit value as it is, the
    accumulator is the running maximum of the responses. *)
Lemma process_gabor_item filter2D astype img filters r c :
  (forall v, (0 <= v <= 65535)%Z -> astype img v = v) ->
  Forall (fun kern => (0 <= item (filter2D img kern) r c <= 65535)%Z) filters ->
  item (process_gabor filter2D astype img filters) r c
  = fold_left Z.max (map (fun kern => item (filter2D img kern) r c) filters) 0%Z.
Proof.
  intros Hcast. unfold process_gabor.
  change 0%Z with (item (full_like img 0%Z) r c) at 3.
  assert (Hacc : (0 <= item (full_like img 0%Z) r c <= 65535)%Z) by (simpl; lia).
  revert Hacc. generalize (full_like img 0%Z) as accum.
  induction filters as [|kern filters IH]; intros accum Hacc Hresp; simpl;
    [reflexivity|].
  inversion Hresp as [|? ? Hk Hrest]; subst.
  rewrite IH; [|cbn [azip item]; rewrite Hcast; lia | exact Hrest].
  cbn [azip item]. rewrite Hcast by lia. reflexivity.
Qed.

Lemma process_gabor_shape filter2D astype img filters :
  shape (process_gabor filter2D astype img filters) = shape img.
Proof.
  unfold process_gabor.
  change (shape img) with (shape (full_like img 0%Z)).
  generalize (full_like img 0%Z) as accum.
  induction filters as [|kern filters IH]; intros accum; simpl; [reflexivity|].
  now rewrite IH.
Qed.

(** In an 8-bit array the maximum wraps: a response of 400 is kept as
    144. *)
Example process_gabor_wraps_in_8_bits :
  item (process_gabor (fun img _ => full_like img 400%Z)
                      (fun _ v => (v mod 256)%Z)
                      StandIn.blank [StandIn.getGaborKernel (9, 9) 4 0 6 (1 # 2) 0])
       0 0
  = 144%Z.
Proof. reflexivity. Qed.

(** X15.  The Gabor response [process_gabor] accumulates has the shape
    of the image, whatever the shapes of the filtered images.  At a
    pixel where the responses of the filters are 16-bit values, and for
    an image whose array holds every 16-bit value as it is (a 16-bit
    image, not an 8-bit one, in which the maximum wraps), it is the
    maximum of 0 and the responses: at least 0 and at least the
    response of every filter, and either 0 or the response of one of
    the filters. *)
Theorem process_gabor_is_maximum :
  forall filter2D astype img filters r c,
    (forall v, (0 <= v <= 65535)%Z -> astype img v = v) ->
    Forall (fun kern => (0 <= item (filter2D img kern) r c <= 65535)%Z) filters ->
    shape (process_gabor filter2D astype img filters) = shape img /\
    (0 <= item (process_gabor filter2D astype img filters) r c)%Z /\
    Forall (fun kern =>
              (item (filter2D img kern) r c
               <= item (process_gabor filter2D astype img filters) r c)%Z)
           filters /\
    (item (process_gabor filter2D astype img filters) r c = 0%Z \/
     exists kern,
       In kern filters /\
       item (process_gabor filter2D astype img filters) r c
       = item (filter2D img kern) r c).
Proof.
  intros filter2D astype img filters r c Hcast Hresp.
  split; [apply process_gabor_shape|].
  rewrite (@process_gabor_item filter2D astype img filters r c Hcast Hresp).
  destruct (fold_left_Zmax_le
              (map (fun kern => item (filter2D img kern) r c) filters) 0)
    as (Hle & Hall & Hin).
  split; [exact Hle|]. split.
  - rewrite Forall_map in Hall. exact Hall.
  - destruct Hin as [Heq | Hin]; [now left|]. right.
    apply in_map_iff in Hin. destruct Hin as (kern & Heq & Hin).
    exists kern. split; [exact Hin | now rewrite Heq].
Qed.

(** The statement above for a 16-bit array, the marker image and two
    filters that return the image and a constant. *)
Lemma process_gabor_is_maximum_witness :
  (0 <= item (process_gabor
                (fun img kern => if Qeq_bool (item kern 0 0) 0 then img
                                 else full_like img 7%Z)
                StandIn.astype StandIn.markers
                [mk_ndarray 1 1 (fun _ _ => 0%Q); mk_ndarray 1 1 (fun _ _ => 1%Q)])
             1 1)%Z.
Proof.
  refine (proj1 (proj2 (@process_gabor_is_maximum
            (fun img kern => if Qeq_bool (item kern 0 0) 0 then img
                             else full_like img 7%Z)
            StandIn.astype StandIn.markers
            [mk_ndarray 1 1 (fun _ _ => 0%Q); mk_ndarray 1 1 (fun _ _ => 1%Q)]
            1 1 _ _))).
  - intros v Hv. unfold StandIn.astype. apply Z.mod_small. lia.
  - repeat constructor; vm_compute; discriminate.
Defined.

(* ----------------------------------------------------------------- *)
(** ** Engineering notation *)

Lemma exponent3_spec (e : Z) :
  ((e - e mod 3) mod 3 = 0 /\ e - e mod 3 <= e < e - e mod 3 + 3)%Z.
Proof.
  pose proof (Z.mod_pos_bound e 3 ltac:(lia)) as Hbound.
  split; [|lia].
  rewrite (Z.div_mod e 3) at 1 by lia.
  replace (3 * (e / 3) + e mod 3 - e mod 3)%Z with (e / 3 * 3)%Z by lia.
  apply Z.mod_mul. lia.
Qed.

(** The exponent the code uses is the multiple of 3 at or just below
    the decimal exponent. *)
Lemma exponent3_unique (e exp3 : Z) :
  (exp3 mod 3 = 0)%Z -> (exp3 <= e < exp3 + 3)%Z -> (e - e mod 3)%Z = exp3.
Proof.
  intros Hmod Hrange. destruct (exponent3_spec e) as [Hmod' Hrange'].
  apply Z.mod_divide in Hmod; [|lia]. apply Z.mod_divide in Hmod'; [|lia].
  destruct Hmod as [m Hm]. destruct Hmod' as [m' Hm']. lia.
Qed.

(** The text the code puts after the number. *)
Lemma exponent_text_computed (si : bool) (exp3 : Z) :
  (exp3 mod 3 = 0)%Z ->
  (if si && (-24 <=? exp3)%Z && (exp3 <=? 24)%Z && negb (exp3 =? 0)%Z then
     str_index "yzafpnum kMGTPEZY" (Z.quot (exp3 - (-24)) 3)
   else if (exp3 =? 0)%Z then Return ""%string
   else Return ("e" ++ str_of_int exp3)%string)
  = Return (exponent_text si exp3).
Proof.
  intros Hmod. unfold exponent_text.
  destruct (Z.eqb_spec exp3 0) as [-> | Hne].
  - rewrite !andb_false_r. reflexivity.
  - rewrite andb_true_r.
    destruct si; cbn [andb]; [|reflexivity].
    destruct (Z.leb_spec (-24) exp3) as [Hlo | Hlo];
      destruct (Z.leb_spec exp3 24) as [Hhi | Hhi]; cbn [andb].
    + assert (Hcases : exp3 = (-24)%Z \/ exp3 = (-21)%Z \/ exp3 = (-18)%Z \/
                       exp3 = (-15)%Z \/ exp3 = (-12)%Z \/ exp3 = (-9)%Z \/
                       exp3 = (-6)%Z \/ exp3 = (-3)%Z \/ exp3 = 3%Z \/
                       exp3 = 6%Z \/ exp3 = 9%Z \/ exp3 = 12%Z \/ exp3 = 15%Z \/
                       exp3 = 18%Z \/ exp3 = 21%Z \/ exp3 = 24%Z).
      { apply Z.mod_divide in Hmod; [|lia]. destruct Hmod as [m ->]. lia. }
      repeat (destruct Hcases as [-> | Hcases]; [reflexivity|]).
      subst. reflexivity.
    + unfold si_symbol, si_table. cbn [find fst snd].
      repeat match goal with
             | |- context [(?c =? exp3)%Z] =>
                 destruct (Z.eqb_spec c exp3); [lia|]
             end.
      reflexivity.
    + unfold si_symbol, si_table. cbn [find fst snd].
      repeat match goal with
             | |- context [(?c =? exp3)%Z] =>
                 destruct (Z.eqb_spec c exp3); [lia|]
             end.
      reflexivity.
    + lia.
Qed.

Lemma Qabs_as_code (x : Q) :
  (if Qlt_bool x 0 then (- x)%Q else x) = Qabs x.
Proof.
  destruct x as [n d]. unfold Qabs, Qopp. cbn [Qnum Qden].
  destruct (Qlt_bool (n # d) 0) eqn:E.
  - apply Qlt_bool_iff in E. unfold Qlt in E. cbn [Qnum Qden] in E.
    rewrite Z.abs_neq by lia. reflexivity.
  - assert (H : ~ (n # d < 0)%Q) by (rewrite <- Qlt_bool_iff; congruence).
    unfold Qlt in H. cbn [Qnum Qden] in H.
    rewrite Z.abs_eq by lia. reflexivity.
Qed.

Section EngStringProperties.

Variable format : Q -> string.
Variable format_int : Z -> string.
Variable floor_log10 : Q -> result Z.
Variable pow10 : Z -> Q.
Variable truediv : Q -> Q -> result Q.

(** What [eng_string] returns for a number other than 0, once the
    logarithm and the division have returned. *)
Lemma eng_string_nonzero (x : Q) (si : bool) (exp exp3 : Z) (x3 : Q) :
  ~ (x == 0)%Q ->
  floor_log10 (Qabs x) = Return exp ->
  (exp3 mod 3 = 0)%Z -> (exp3 <= exp < exp3 + 3)%Z ->
  truediv (Qabs x) (pow10 exp3) = Return x3 ->
  eng_string format format_int floor_log10 pow10 truediv x si
  = Return (sign_text x ++ format x3 ++ exponent_text si exp3)%string.
Proof.
  intros Hx Hlog Hmod Hrange Hdiv. unfold eng_string, sign_text.
  assert (Hne : Qeq_bool x 0 = false).
  { destruct (Qeq_bool x 0) eqn:E; [|reflexivity].
    apply Qeq_bool_iff in E. contradiction. }
  rewrite Hne.
  pose proof (Qabs_as_code x) as Hcode. set (a := Qabs x) in *.
  destruct (Qlt_bool x 0); cbv beta iota; rewrite Hcode, Hlog; cbn [bind];
    rewrite (exponent3_unique Hmod Hrange), Hdiv; cbn [bind];
    rewrite (@exponent_text_computed si exp3 Hmod); reflexivity.
Qed.

End EngStringProperties.

(** X16.  For a number other than 0, once the floating-point logarithm
    has given the decimal exponent and the division has given the
    mantissa, [eng_string] returns a text (the look-up of the prefix
    never fails): the sign, then the rendering of the mantissa, then
    the exponent text.  The exponent it divides by and prints is the
    multiple of 3 at or just below the decimal exponent. *)
Theorem eng_string_decomposition :
  forall (format : Q -> string) (format_int : Z -> string)
         (floor_log10 : Q -> result Z) (pow10 : Z -> Q)
         (truediv : Q -> Q -> result Q) (x : Q) (si : bool) (exp exp3 : Z) (x3 : Q),
    ~ (x == 0)%Q ->
    floor_log10 (Qabs x) = Return exp ->
    (exp3 mod 3 = 0)%Z -> (exp3 <= exp < exp3 + 3)%Z ->
    truediv (Qabs x) (pow10 exp3) = Return x3 ->
    eng_string format format_int floor_log10 pow10 truediv x si
    = Return (sign_text x ++ format x3 ++ exponent_text si exp3)%string.
Proof.
  intros format format_int floor_log10 pow10 truediv x si exp exp3 x3.
  apply eng_string_nonzero.
Qed.

(** The statement above at 1230, in exact arithmetic: the decimal
    exponent is 3 and the mantissa 123/100. *)
Lemma eng_string_decomposition_witness :
  eng_string Exact.format_fraction str_of_int Exact.floor_log10 Exact.pow10 Exact.truediv
             1230 false
  = Return (sign_text 1230 ++ Exact.format_fraction (1230 / 10 ^ 3)%Q
              ++ exponent_text false 3)%string.
Proof.
  refine (@eng_string_decomposition
            Exact.format_fraction str_of_int Exact.floor_log10 Exact.pow10 Exact.truediv
            1230 false 3 3 (1230 / 10 ^ 3)%Q _ _ _ _ _).
  - discriminate.
  - vm_compute. reflexivity.
  - reflexivity.
  - lia.
  - vm_compute. reflexivity.
Defined.

Lemma si_table_entry (exp3 : Z) (symbol : string) :
  In (exp3, symbol) si_table ->
  (exp3 mod 3 = 0)%Z /\ exponent_text true exp3 = symbol /\
  exponent_text false exp3 = ("e" ++ str_of_int exp3)%string.
Proof.
  unfold si_table. cbn [In]. intros H.
  repeat (destruct H as [H | H];
          [injection H as <- <-; repeat split; reflexivity|]).
  destruct H.
Qed.

(** X17.  With [si] set, a number whose decimal exponent (as the
    floating-point logarithm gives it) lies in the three decades of an
    SI prefix, from yocto (-24) to yotta (24), is rendered as its sign,
    the mantissa, and the symbol of the prefix: y, z, a, f, p, n, u, m,
    k, M, G, T, P, E, Z or Y.  Without [si], the same number ends in
    "e" and the exponent of the prefix. *)
Theorem eng_string_si_prefix :
  forall (format : Q -> string) (format_int : Z -> string)
         (floor_log10 : Q -> result Z) (pow10 : Z -> Q)
         (truediv : Q -> Q -> result Q) (x : Q) (exp exp3 : Z) (x3 : Q)
         (symbol : string),
    ~ (x == 0)%Q ->
    floor_log10 (Qabs x) = Return exp ->
    In (exp3, symbol) si_table -> (exp3 <= exp < exp3 + 3)%Z ->
    truediv (Qabs x) (pow10 exp3) = Return x3 ->
    eng_string format format_int floor_log10 pow10 truediv x true
    = Return (sign_text x ++ format x3 ++ symbol)%string
    /\
    eng_string format format_int floor_log10 pow10 truediv x false
    = Return (sign_text x ++ format x3 ++ "e" ++ str_of_int exp3)%string.
Proof.
  intros format format_int floor_log10 pow10 truediv x exp exp3 x3 symbol Hx Hlog Hin Hrange
         Hdiv.
  destruct (@si_table_entry exp3 symbol Hin) as (Hmod & Hsi & Hplain).
  rewrite !(fun si => @eng_string_nonzero format format_int floor_log10 pow10 truediv x si
                        exp exp3 x3 Hx Hlog Hmod Hrange Hdiv), Hsi, Hplain.
  split; reflexivity.
Qed.

(** The statement above at -1230000, in exact arithmetic: it is
    rendered with "M". *)
Lemma eng_string_si_prefix_witness :
  eng_string Exact.format_fraction str_of_int Exact.floor_log10 Exact.pow10 Exact.truediv
             (-1230000) true
  = Return (sign_text (-1230000) ++ Exact.format_fraction (1230000 / 10 ^ 6)%Q ++ "M")%string
  /\
  eng_string Exact.format_fraction str_of_int Exact.floor_log10 Exact.pow10 Exact.truediv
             (-1230000) false
  = Return (sign_text (-1230000) ++ Exact.format_fraction (1230000 / 10 ^ 6)%Q
              ++ "e" ++ str_of_int 6)%string.
Proof.
  refine (@eng_string_si_prefix
            Exact.format_fraction str_of_int Exact.floor_log10 Exact.pow10 Exact.truediv
            (-1230000) 6 6 (1230000 / 10 ^ 6)%Q "M" _ _ _ _ _).
  - discriminate.
  - vm_compute. reflexivity.
  - unfold si_table. cbn [In]. do 9 right. left. reflexivity.
  - lia.
  - vm_compute. reflexivity.
Defined.

Lemma string_append_empty (s : string) : (s ++ "")%string = s.
Proof. induction s as [|c s IH]; simpl; [reflexivity | now rewrite IH]. Qed.

(** X18.  A number whose decimal exponent (as the floating-point
    logarithm gives it) is 0, 1 or 2 is rendered without any exponent
    text, with or without [si].  A number whose exponent lies below
    the yocto decades or above the yotta decades has no SI prefix and
    is rendered with "e" and the exponent even when [si] is set. *)
Theorem eng_string_outside_si_range :
  forall (format : Q -> string) (format_int : Z -> string)
         (floor_log10 : Q -> result Z) (pow10 : Z -> Q)
         (truediv : Q -> Q -> result Q) (x : Q) (si : bool) (exp exp3 : Z) (x3 : Q),
    ~ (x == 0)%Q ->
    floor_log10 (Qabs x) = Return exp ->
    (exp3 mod 3 = 0)%Z -> (exp3 <= exp < exp3 + 3)%Z ->
    truediv (Qabs x) (pow10 exp3) = Return x3 ->
    (exp3 = 0%Z ->
     eng_string format format_int floor_log10 pow10 truediv x si
     = Return (sign_text x ++ format x3)%string)
    /\
    ((exp3 < -24)%Z \/ (24 < exp3)%Z ->
     eng_string format format_int floor_log10 pow10 truediv x si
     = Return (sign_text x ++ format x3 ++ "e" ++ str_of_int exp3)%string).
Proof.
  intros format format_int floor_log10 pow10 truediv x si exp exp3 x3 Hx Hlog Hmod Hrange Hdiv.
  rewrite (@eng_string_nonzero format format_int floor_log10 pow10 truediv x si
             exp exp3 x3 Hx Hlog Hmod Hrange Hdiv).
  split.
  - intros ->. unfold exponent_text. cbn [Z.eqb]. now rewrite string_append_empty.
  - intros Hout. unfold exponent_text.
    destruct (Z.eqb_spec exp3 0) as [-> | Hne]; [lia|].
    assert (Hnone : si_symbol exp3 = None).
    { unfold si_symbol, si_table. cbn [find fst snd].
      repeat match goal with
             | |- context [(?c =? exp3)%Z] =>
                 destruct (Z.eqb_spec c exp3); [lia|]
             end.
      reflexivity. }
    destruct si; [rewrite Hnone|]; reflexivity.
Qed.

(** The statement above at 10^27, in exact arithmetic: there is no
    prefix for it. *)
Lemma eng_string_outside_si_range_witness :
  eng_string Exact.format_fraction str_of_int Exact.floor_log10 Exact.pow10 Exact.truediv
             1000000000000000000000000000 true
  = Return (sign_text 1000000000000000000000000000 ++ Exact.format_fraction
                (1000000000000000000000000000 / 10 ^ 27)%Q
              ++ "e" ++ str_of_int 27)%string.
Proof.
  refine (proj2 (@eng_string_outside_si_range
                   Exact.format_fraction str_of_int Exact.floor_log10 Exact.pow10 Exact.truediv
                   1000000000000000000000000000 true 27 27
                   (1000000000000000000000000000 / 10 ^ 27)%Q _ _ _ _ _) _).
  - discriminate.
  - vm_compute. reflexivity.
  - reflexivity.
  - lia.
  - vm_compute. reflexivity.
  - right. reflexivity.
Defined.

Lemma Qopp_opp_eq (x : Q) : (- - x)%Q = x.
Proof. destruct x as [n d]. unfold Qopp. cbn [Qnum Qden]. now rewrite Z.opp_involutive. Qed.

(** X19.  [eng_string] treats the sign apart: for a positive number the
    call on its opposite does what the call on the number does and
    puts "-" before the text; it raises when that call raises, with
    the same exception.  For 0 the text is the rendering of 0, with no
    sign and no exponent, whatever [si]. *)
Theorem eng_string_sign :
  forall (format : Q -> string) (format_int : Z -> string)
         (floor_log10 : Q -> result Z) (pow10 : Z -> Q)
         (truediv : Q -> Q -> result Q) (x : Q) (si : bool),
    (0 < x)%Q ->
    eng_string format format_int floor_log10 pow10 truediv (- x) si
    = (text <- eng_string format format_int floor_log10 pow10 truediv x si ;;
       Return ("-" ++ text)%string)
    /\
    eng_string format format_int floor_log10 pow10 truediv 0 si
    = Return (format_int 0%Z).
Proof.
  intros format format_int floor_log10 pow10 truediv x si Hx. split; [|reflexivity].
  unfold eng_string.
  assert (Hx0 : Qeq_bool x 0 = false).
  { destruct (Qeq_bool x 0) eqn:E; [|reflexivity].
    apply Qeq_bool_iff in E. rewrite E in Hx. discriminate Hx. }
  assert (Hn0 : Qeq_bool (- x) 0 = false).
  { destruct (Qeq_bool (- x) 0) eqn:E; [|reflexivity].
    apply Qeq_bool_iff in E.
    assert (H0 : (x == 0)%Q) by (rewrite <- (Qopp_involutive x), E; reflexivity).
    rewrite H0 in Hx. discriminate Hx. }
  assert (Hpos : Qlt_bool x 0 = false).
  { destruct (Qlt_bool x 0) eqn:E; [|reflexivity].
    apply Qlt_bool_iff in E. exfalso. apply (Qlt_irrefl 0).
    eapply Qlt_trans; eassumption. }
  assert (Hneg : Qlt_bool (- x) 0 = true).
  { apply Qlt_bool_iff. setoid_replace 0%Q with (- 0)%Q by reflexivity.
    now apply Qopp_lt_compat. }
  rewrite Hx0, Hn0, Hpos, Hneg, Qopp_opp_eq. cbv beta iota.
  destruct (floor_log10 x) as [exp|e]; cbn [bind]; [|reflexivity].
  destruct (truediv x (pow10 (exp - exp mod 3)%Z)) as [x3|e]; cbn [bind];
    [|reflexivity].
  match goal with
  | |- context [bind ?m _] => destruct m as [exp3_text|e]; cbn [bind]
  end; reflexivity.
Qed.

(** The statement above at 1230, in exact arithmetic. *)
Lemma eng_string_sign_witness :
  eng_string Exact.format_fraction str_of_int Exact.floor_log10 Exact.pow10 Exact.truediv
             (- 1230) true
  = (text <- eng_string Exact.format_fraction str_of_int Exact.floor_log10 Exact.pow10
                        Exact.truediv 1230 true ;;
     Return ("-" ++ text)%string).
Proof.
  refine (proj1 (@eng_string_sign
                   Exact.format_fraction str_of_int Exact.floor_log10 Exact.pow10 Exact.truediv
                   1230 true _)).
  reflexivity.
Defined.

(** The examples of the docstring in exact arithmetic, with the
    fraction in place of the decimal rendering: 1.23e-08 is 12.3e-9;
    123 has no exponent; 1230 is 1.23e3 and 1.23k; -1230000 is -1.23e6
    and -1.23M. *)
Example eng_string_docstring :
  let eng_string :=
    eng_string Exact.format_fraction str_of_int Exact.floor_log10 Exact.pow10 Exact.truediv in
  eng_string (123 # 10000000000)%Q false = Return "123/10e-9"%string /\
  eng_string 123%Q false = Return "123/1"%string /\
  eng_string 1230%Q false = Return "123/100e3"%string /\
  eng_string (-1230000)%Q false = Return "-123/100e6"%string /\
  eng_string 1230%Q true = Return "123/100k"%string /\
  eng_string (-1230000)%Q true = Return "-123/100M"%string.
Proof. vm_compute. repeat split; reflexivity. Qed.

(* ----------------------------------------------------------------- *)
(** ** Picking a line with the mouse *)

Lemma euclidean_dist_euc (a b : QPoint) :
  euclidean a b = dist_euc (IZR (qx a)) (IZR (qy a)) (IZR (qx b)) (IZR (qy b)).
Proof.
  unfold euclidean, squared_distance, dist_euc, Rsqr. f_equal.
  rewrite plus_IZR, !Z.pow_2_r, !mult_IZR, !minus_IZR. reflexivity.
Qed.

Lemma euclidean_nonneg (a b : QPoint) : (0 <= euclidean a b)%R.
Proof. apply sqrt_pos. Qed.

Lemma squared_distance_sym (a b : QPoint) :
  squared_distance a b = squared_distance b a.
Proof. unfold squared_distance. rewrite !Z.pow_2_r. ring. Qed.

Lemma euclidean_sym (a b : QPoint) : euclidean a b = euclidean b a.
Proof. unfold euclidean. now rewrite squared_distance_sym. Qed.

Lemma euclidean_same (a : QPoint) : euclidean a a = 0%R.
Proof.
  unfold euclidean, squared_distance. rewrite !Z.sub_diag. simpl. apply sqrt_0.
Qed.

Lemma euclidean_triangle (a b c : QPoint) :
  (euclidean a b <= euclidean a c + euclidean c b)%R.
Proof. rewrite !euclidean_dist_euc. apply triangle. Qed.

(** Two distinct points with integer coordinates are at least 1
    apart. *)
Lemma euclidean_apart (a c : QPoint) : a <> c -> (1 <= euclidean a c)%R.
Proof.
  intros Hne. unfold euclidean, squared_distance. rewrite <- sqrt_1.
  apply sqrt_le_1_alt.
  apply IZR_le. destruct a as [ax ay], c as [cx cy]. cbn [qx qy].
  assert (Hcases : ax <> cx \/ ay <> cy).
  { destruct (Z.eq_dec ax cx) as [-> | Hx]; [|now left].
    destruct (Z.eq_dec ay cy) as [-> | Hy]; [|now right].
    now contradiction Hne. }
  nia.
Qed.

(** What [distance] does. *)
Lemma distance_computed (a b : QPoint) :
  distance a b
  = if (squared_distance a b <? 2 ^ 64)%Z then Return (euclidean a b)
    else Raise TypeError.
Proof. reflexivity. Qed.

(** The tolerance test on a detour, which is not negative: the
    relative tolerance never decides. *)
Lemma isclose_detour (dist : R) :
  (0 <= dist)%R -> (isclose dist 0 default_rel_tol 1 = true <-> (dist <= 1)%R).
Proof.
  intros Hdist. unfold isclose, default_rel_tol.
  rewrite Rminus_0_r, Rabs_R0, (Rabs_pos_eq dist Hdist).
  rewrite (Rmax_left dist 0) by exact Hdist.
  destruct (Rle_dec dist (Rmax (/ 1000000000 * dist) 1)) as [Hle | Hgt].
  - split; [intros _ | reflexivity].
    destruct (Rmax_case_strong (/ 1000000000 * dist) 1
                (fun m => dist <= m -> dist <= 1)%R) as [Hc|Hc]; auto.
    + intros _ Hd. lra.
    + lra.
    + lra.
  - split; [discriminate|]. intros H. exfalso. apply Hgt.
    eapply Rle_trans; [exact H | apply Rmax_r].
Qed.

(** [is_between] returns [True] exactly when the three distances are
    within reach of the square root and the detour is at most 1. *)
Lemma is_between_detour (c a b : QPoint) :
  is_between c a b = Return true
  <-> in_reach a c /\ in_reach c b /\ in_reach a b /\
      (euclidean a c + euclidean c b <= euclidean a b + 1)%R.
Proof.
  unfold is_between, in_reach. rewrite !distance_computed.
  pose proof (euclidean_triangle a b c) as Htri.
  destruct (Z.ltb_spec (squared_distance a c) (2 ^ 64)) as [Hac | Hac]; cbn [bind];
    [|split; [discriminate | lia]].
  destruct (Z.ltb_spec (squared_distance c b) (2 ^ 64)) as [Hcb | Hcb]; cbn [bind];
    [|split; [discriminate | lia]].
  destruct (Z.ltb_spec (squared_distance a b) (2 ^ 64)) as [Hab | Hab]; cbn [bind];
    [|split; [discriminate | lia]].
  split.
  - intros H. injection H as H. apply isclose_detour in H; [|lra].
    repeat split; try assumption. lra.
  - intros (_ & _ & _ & H). f_equal. apply isclose_detour; lra.
Qed.

(** X20.  The detour through [c] is never negative, and
    [is_between c a b] returns [True] exactly when the square root can
    take the three distances (their squares are below 2^64) and going
    from [a] to [b] through [c] is at most 1 longer than going
    straight: the relative tolerance of [math.isclose] never
    decides. *)
Theorem is_between_iff :
  forall c a b,
    (0 <= euclidean a c + euclidean c b - euclidean a b)%R /\
    (is_between c a b = Return true
     <-> in_reach a c /\ in_reach c b /\ in_reach a b /\
         (euclidean a c + euclidean c b <= euclidean a b + 1)%R).
Proof.
  intros c a b. split; [|apply is_between_detour].
  pose proof (euclidean_triangle a b c). lra.
Qed.

(** X21.  The two ends of a line can be swapped: the call returns, or
    raises, the same.  Both ends of a line are on it, when the square
    root can take its length; otherwise the call raises
    [TypeError]. *)
Theorem is_between_ends :
  forall c a b,
    is_between c a b = is_between c b a /\
    is_between a a b
    = (if (squared_distance a b <? 2 ^ 64)%Z then Return true else Raise TypeError) /\
    is_between b a b
    = (if (squared_distance a b <? 2 ^ 64)%Z then Return true else Raise TypeError).
Proof.
  intros c a b. split; [|split].
  - unfold is_between. rewrite !distance_computed.
    rewrite (squared_distance_sym b c), (squared_distance_sym c a),
      (squared_distance_sym b a), (euclidean_sym b c), (euclidean_sym c a),
      (euclidean_sym b a).
    destruct (squared_distance a c <? 2 ^ 64)%Z;
      destruct (squared_distance c b <? 2 ^ 64)%Z;
      destruct (squared_distance a b <? 2 ^ 64)%Z; cbn [bind]; try reflexivity.
    do 2 f_equal. ring.
  - destruct (Z.ltb_spec (squared_distance a b) (2 ^ 64)) as [Hab | Hab].
    + apply is_between_detour. unfold in_reach.
      rewrite euclidean_same. pose proof (euclidean_nonneg a b).
      repeat split; try assumption; [|lra].
      unfold squared_distance. rewrite !Z.sub_diag. reflexivity.
    + unfold is_between. rewrite !distance_computed.
      destruct (squared_distance a a <? 2 ^ 64)%Z; cbn [bind]; [|reflexivity].
      destruct (Z.ltb_spec (squared_distance a b) (2 ^ 64)); [lia | reflexivity].
  - destruct (Z.ltb_spec (squared_distance a b) (2 ^ 64)) as [Hab | Hab].
    + apply is_between_detour. unfold in_reach.
      rewrite euclidean_same. pose proof (euclidean_nonneg a b).
      repeat split; try assumption; [|lra].
      unfold squared_distance. rewrite !Z.sub_diag. reflexivity.
    + unfold is_between. rewrite !distance_computed.
      destruct (Z.ltb_spec (squared_distance a b) (2 ^ 64)); [lia | reflexivity].
Qed.

(** X22.  A line whose two ends coincide is picked only at that
    point. *)
Theorem is_between_degenerate_line :
  forall c a, is_between c a a = Return true <-> c = a.
Proof.
  intros c a. rewrite is_between_detour, euclidean_same, (euclidean_sym c a).
  split.
  - intros (_ & _ & _ & H). destruct c as [cx cy], a as [ax ay].
    destruct (Z.eq_dec ax cx) as [-> | Hx].
    + destruct (Z.eq_dec ay cy) as [-> | Hy]; [reflexivity|].
      assert (Hne : mk_QPoint cx ay <> mk_QPoint cx cy) by congruence.
      apply euclidean_apart in Hne. lra.
    + assert (Hne : mk_QPoint ax ay <> mk_QPoint cx cy) by congruence.
      apply euclidean_apart in Hne. lra.
  - intros ->. rewrite euclidean_same. unfold in_reach, squared_distance.
    rewrite !Z.sub_diag. repeat split; try reflexivity. lra.
Qed.

Lemma squared_distance_scaled (a c : QPoint) (s dx dy : R) :
  (IZR (qx a) - IZR (qx c) = s * dx)%R ->
  (IZR (qy a) - IZR (qy c) = s * dy)%R ->
  IZR (squared_distance a c) = (Rsqr s * (dx * dx + dy * dy))%R.
Proof.
  intros Hx Hy. unfold squared_distance.
  rewrite plus_IZR, !Z.pow_2_r, !mult_IZR, !minus_IZR, Hx, Hy.
  unfold Rsqr. ring.
Qed.

Lemma euclidean_scaled (a c : QPoint) (s dx dy : R) :
  (0 <= s)%R ->
  (IZR (qx a) - IZR (qx c) = s * dx)%R ->
  (IZR (qy a) - IZR (qy c) = s * dy)%R ->
  euclidean a c = (s * sqrt (dx * dx + dy * dy))%R.
Proof.
  intros Hs Hx Hy. unfold euclidean.
  rewrite (squared_distance_scaled a c Hx Hy).
  rewrite sqrt_mult_alt by apply Rle_0_sqr.
  now rewrite sqrt_Rsqr.
Qed.

(** A part of a line is not longer than the line. *)
Lemma squared_distance_part (a b p q : QPoint) (s : R) :
  (0 <= s <= 1)%R ->
  (IZR (qx p) - IZR (qx q) = s * (IZR (qx a) - IZR (qx b)))%R ->
  (IZR (qy p) - IZR (qy q) = s * (IZR (qy a) - IZR (qy b)))%R ->
  (squared_distance p q <= squared_distance a b)%Z.
Proof.
  intros [Hs0 Hs1] Hx Hy. apply le_IZR.
  rewrite (squared_distance_scaled p q Hx Hy).
  rewrite (@squared_distance_scaled a b 1 (IZR (qx a) - IZR (qx b))
             (IZR (qy a) - IZR (qy b))) by lra.
  set (d := ((IZR (qx a) - IZR (qx b)) * (IZR (qx a) - IZR (qx b))
             + (IZR (qy a) - IZR (qy b)) * (IZR (qy a) - IZR (qy b)))%R).
  assert (Hd : (0 <= d)%R)
    by (unfold d; apply Rplus_le_le_0_compat; apply Rle_0_sqr).
  assert (Hs : (Rsqr s <= Rsqr 1)%R) by (apply Rsqr_incr_1; lra).
  apply Rmult_le_compat_r; assumption.
Qed.

(** X23.  Every point of the segment from [a] to [b] is between [a]
    and [b], when the square root can take the length of the
    segment. *)
Theorem is_between_on_segment :
  forall c a b (s : R),
    in_reach a b ->
    (0 <= s <= 1)%R ->
    (IZR (qx c) = IZR (qx a) + s * (IZR (qx b) - IZR (qx a)))%R ->
    (IZR (qy c) = IZR (qy a) + s * (IZR (qy b) - IZR (qy a)))%R ->
    is_between c a b = Return true.
Proof.
  intros c a b s Hab [Hs0 Hs1] Hx Hy. apply is_between_detour.
  set (dx := (IZR (qx a) - IZR (qx b))%R).
  set (dy := (IZR (qy a) - IZR (qy b))%R).
  assert (Hac : (squared_distance a c <= squared_distance a b)%Z).
  { apply (@squared_distance_part a b a c s); lra. }
  assert (Hcb : (squared_distance c b <= squared_distance a b)%Z).
  { apply (@squared_distance_part a b c b (1 - s)); lra. }
  unfold in_reach in *.
  split; [lia|]. split; [lia|]. split; [exact Hab|].
  rewrite (@euclidean_scaled a c s dx dy), (@euclidean_scaled c b (1 - s) dx dy),
    (@euclidean_scaled a b 1 dx dy); unfold dx, dy; try lra.
Qed.

(** The statement above at the middle of the line from (0, 0) to
    (4, 2). *)
Lemma is_between_on_segment_witness :
  is_between (mk_QPoint 2 1) (mk_QPoint 0 0) (mk_QPoint 4 2) = Return true.
Proof.
  refine (@is_between_on_segment (mk_QPoint 2 1) (mk_QPoint 0 0)
            (mk_QPoint 4 2) (/ 2) _ _ _ _).
  - reflexivity.
  - lra.
  - cbn [qx qy]. lra.
  - cbn [qx qy]. lra.
Defined.

(** Two points with 32-bit coordinates can be too far apart for the
    square root: the call raises. *)
Example is_between_out_of_reach :
  is_between (mk_QPoint 0 0) (mk_QPoint (- 2 ^ 31) (- 2 ^ 31))
             (mk_QPoint (2 ^ 31 - 1) (2 ^ 31 - 1))
  = Raise TypeError.
Proof.
  unfold is_between. rewrite !distance_computed.
  repeat match goal with
         | |- context [(?n <? ?m)%Z] =>
             let b := eval vm_compute in (n <? m)%Z in
             change (n <? m)%Z with b
         end.
  reflexivity.
Qed.
